(** * Phoenix IDL tooling: the schema patch step and its drivers

    A shallow embedding of [idl/generateIdl.js] and [idl/generateClient.js].

    - [Json]: the values [require]/[JSON.parse] hand to the program and that
      [JSON.stringify] prints, as a tree (objects keep their property order).
    - [GenerateIdl]: [mutateIdl], first on values, then on the file system.
    - [GenerateClient]: [generateTypeScriptSDK] and its [main].

    The model covers ASCII text and integer numbers within the safe range;
    whatever falls outside is reported as [Beyond], never guessed. *)

From Stdlib Require Import ZArith Ascii String List Bool Lia.
From Stdlib Require Import DecimalFacts DecimalPos DecimalN.
From stdpp Require Import base option list strings gmap.

Local Open Scope string_scope.
Local Open Scope list_scope.
Local Set Warnings "-register-all".

(** ** Errors and results *)

(** The exceptions the two scripts can meet. *)
Inductive JsError : Type :=
| SyntaxError                       (* JSON.parse on malformed text *)
| TypeError                         (* property of null/undefined, not iterable, not a function *)
| ModuleNotFound                    (* require of a missing file *)
| ReferenceError (ident : string)   (* unbound identifier *)
| ExternalError (msg : string).     (* rejection coming from a library or the OS *)

(** A computation returns, throws, or leaves the modelled fragment. *)
Inductive res (A : Type) : Type :=
| Ok (a : A)
| Throw (e : JsError)
| Beyond.
Arguments Ok {A} a.
Arguments Throw {A} e.
Arguments Beyond {A}.

Definition res_bind {A B} (m : res A) (k : A -> res B) : res B :=
  match m with
  | Ok a => k a
  | Throw e => Throw e
  | Beyond => Beyond
  end.

Notation "'let*' x ':=' m 'in' k" := (res_bind m (fun x => k))
  (at level 10, x name, m at level 100, k at level 200).

(** ** JSON values *)

Module Json.

Inductive json : Type :=
| JNull
| JBool (b : bool)
| JNum (n : Z)
| JStr (s : string)
| JArr (xs : list json)
| JObj (ps : list (string * json)).

(** Own-property lookup in an object's property list (first binding). *)
Fixpoint obj_get (k : string) (ps : list (string * json)) : option json :=
  match ps with
  | [] => None
  | (k', v) :: ps' => if String.eqb k k' then Some v else obj_get k ps'
  end.

(** Replace the value bound to [k], keeping the property's position. *)
Fixpoint obj_update (k : string) (v : json) (ps : list (string * json))
  : list (string * json) :=
  match ps with
  | [] => []
  | (k', v') :: ps' =>
      if String.eqb k k' then (k', v) :: ps' else (k', v') :: obj_update k v ps'
  end.

(** [o.k] for the property names the scripts read ([instructions], [name],
    [args]): none of them lives on a built-in prototype, so the read is an
    own-property lookup on objects, [undefined] ([None]) on arrays, strings,
    numbers and booleans, and a [TypeError] on [null]. *)
Definition get_prop (o : json) (k : string) : res (option json) :=
  match o with
  | JNull => Throw TypeError
  | JObj ps => Ok (obj_get k ps)
  | _ => Ok None
  end.

(** The object [o] after its property [k] was made to hold [v]. *)
Definition with_prop (o : json) (k : string) (v : json) : json :=
  match o with
  | JObj ps => JObj (obj_update k v ps)
  | _ => o
  end.

Definition keys (ps : list (string * json)) : list string := map fst ps.

(** [Object.keys(v)] of an object; the other values the model asks it of
    have none that matter. *)
Definition obj_keys (v : json) : list string :=
  match v with JObj ps => keys ps | _ => [] end.

(** Induction over a value and the values nested in it. *)
Section JsonInd.
Variable P : json -> Prop.
Hypothesis Hnull : P JNull.
Hypothesis Hbool : forall b, P (JBool b).
Hypothesis Hnum : forall n, P (JNum n).
Hypothesis Hstr : forall s, P (JStr s).
Hypothesis Harr : forall xs, Forall P xs -> P (JArr xs).
Hypothesis Hobj : forall ps, Forall (fun p => P (snd p)) ps -> P (JObj ps).

Fixpoint json_nested_ind (v : json) : P v :=
  match v with
  | JNull => Hnull
  | JBool b => Hbool b
  | JNum n => Hnum n
  | JStr s => Hstr s
  | JArr xs =>
      Harr xs ((fix go (l : list json) : Forall P l :=
                  match l with
                  | [] => List.Forall_nil _
                  | x :: l' => List.Forall_cons _ _ _ (json_nested_ind x) (go l')
                  end) xs)
  | JObj ps =>
      Hobj ps ((fix go (l : list (string * json))
                  : Forall (fun p => P (snd p)) l :=
                  match l with
                  | [] => List.Forall_nil _
                  | p :: l' =>
                      List.Forall_cons _ _ _ (json_nested_ind (snd p)) (go l')
                  end) ps)
  end.
End JsonInd.

End Json.
Import Json.

(** ** JSON text: [JSON.stringify(v, null, 2)] and [JSON.parse] *)

Module JsonText.

Definition text : Type := list ascii.

Definition code (c : ascii) : N := N_of_ascii c.

Definition dquote : ascii := "034".
Definition backslash : ascii := "\".
Definition LF : ascii := "010".

(** *** Numbers: decimal digits *)

Definition digit_char (c : ascii) : option (Decimal.uint -> Decimal.uint) :=
  if Ascii.eqb c "0" then Some Decimal.D0
  else if Ascii.eqb c "1" then Some Decimal.D1
  else if Ascii.eqb c "2" then Some Decimal.D2
  else if Ascii.eqb c "3" then Some Decimal.D3
  else if Ascii.eqb c "4" then Some Decimal.D4
  else if Ascii.eqb c "5" then Some Decimal.D5
  else if Ascii.eqb c "6" then Some Decimal.D6
  else if Ascii.eqb c "7" then Some Decimal.D7
  else if Ascii.eqb c "8" then Some Decimal.D8
  else if Ascii.eqb c "9" then Some Decimal.D9
  else None.

Fixpoint uint_text (d : Decimal.uint) : text :=
  match d with
  | Decimal.Nil => []
  | Decimal.D0 d' => "0"%char :: uint_text d'
  | Decimal.D1 d' => "1"%char :: uint_text d'
  | Decimal.D2 d' => "2"%char :: uint_text d'
  | Decimal.D3 d' => "3"%char :: uint_text d'
  | Decimal.D4 d' => "4"%char :: uint_text d'
  | Decimal.D5 d' => "5"%char :: uint_text d'
  | Decimal.D6 d' => "6"%char :: uint_text d'
  | Decimal.D7 d' => "7"%char :: uint_text d'
  | Decimal.D8 d' => "8"%char :: uint_text d'
  | Decimal.D9 d' => "9"%char :: uint_text d'
  end.

(** The longest prefix of decimal digits. *)
Fixpoint read_digits (s : text) : Decimal.uint * text :=
  match s with
  | [] => (Decimal.Nil, [])
  | c :: r =>
      match digit_char c with
      | Some d => let '(ds, r') := read_digits r in (d ds, r')
      | None => (Decimal.Nil, s)
      end
  end.

(** [Number.MAX_SAFE_INTEGER]: integers up to it are exact doubles. *)
Definition MAX_SAFE_INTEGER : Z := 9007199254740991.

(** *** Strings *)

Definition hex_digit (n : N) : ascii :=
  ascii_of_N (if (n <? 10)%N then 48 + n else 87 + n).

Definition hex_value (c : ascii) : option N :=
  let n := code c in
  if ((48 <=? n) && (n <=? 57))%N then Some (n - 48)%N
  else if ((97 <=? n) && (n <=? 102))%N then Some (n - 87)%N
  else if ((65 <=? n) && (n <=? 70))%N then Some (n - 55)%N
  else None.

(** QuoteJSONString on one code unit. *)
Definition escape_char (c : ascii) : text :=
  let n := code c in
  if (n =? 8)%N then [backslash; "b"%char]
  else if (n =? 9)%N then [backslash; "t"%char]
  else if (n =? 10)%N then [backslash; "n"%char]
  else if (n =? 12)%N then [backslash; "f"%char]
  else if (n =? 13)%N then [backslash; "r"%char]
  else if (n =? 34)%N then [backslash; dquote]
  else if (n =? 92)%N then [backslash; backslash]
  else if (n <? 32)%N then
    [backslash; "u"%char; "0"%char; "0"%char;
     hex_digit (n / 16); hex_digit (n mod 16)]
  else [c].

Definition quote (s : string) : text :=
  dquote :: flat_map escape_char (list_ascii_of_string s) ++ [dquote].

(** *** The printer *)

Definition newline (ind : nat) : text := LF :: repeat " "%char (2 * ind).

Definition print_number (n : Z) : text :=
  match n with
  | Z0 => ["0"%char]
  | Zpos p => uint_text (Pos.to_uint p)
  | Zneg p => "-"%char :: uint_text (Pos.to_uint p)
  end.

Section Join.
Context {A : Type} (f : A -> text) (sep : text).
(** [f x1 ++ sep ++ f x2 ++ ... ++ sep ++ f xn] *)
Fixpoint join_map (l : list A) : text :=
  match l with
  | [] => []
  | [x] => f x
  | x :: l' => f x ++ sep ++ join_map l'
  end.
End Join.

(** SerializeJSONProperty with gap of two spaces; [ind] counts the
    enclosing containers. *)
Fixpoint print (ind : nat) (v : json) {struct v} : text :=
  match v with
  | JNull => list_ascii_of_string "null"
  | JBool true => list_ascii_of_string "true"
  | JBool false => list_ascii_of_string "false"
  | JNum n => print_number n
  | JStr s => quote s
  | JArr [] => list_ascii_of_string "[]"
  | JArr xs =>
      "["%char :: newline (S ind)
        ++ join_map (print (S ind)) (","%char :: newline (S ind)) xs
        ++ newline ind ++ ["]"%char]
  | JObj [] => list_ascii_of_string "{}"
  | JObj ps =>
      "{"%char :: newline (S ind)
        ++ join_map (fun p => let '(k, x) := p in
                              quote k ++ ":"%char :: " "%char :: print (S ind) x)
                    (","%char :: newline (S ind)) ps
        ++ newline ind ++ ["}"%char]
  end.

(** [JSON.stringify(v, null, 2)] *)
Definition JSON_stringify (v : json) : string :=
  string_of_list_ascii (print 0 v).

(** *** The parser *)

(** Why a scan stopped without a value. *)
Inductive fault : Type :=
| Malformed      (* not a JSON text: JSON.parse throws a SyntaxError *)
| Unmodelled     (* non-ASCII text, a fraction, an exponent, an unsafe integer *)
| Starved.       (* the recursion budget ran out *)

Inductive pres (A : Type) : Type :=
| Parsed (a : A) (rest : text)
| Fault (f : fault).
Arguments Parsed {A} a rest.
Arguments Fault {A} f.

Definition is_ws (c : ascii) : bool :=
  let n := code c in
  ((n =? 32) || (n =? 9) || (n =? 10) || (n =? 13))%N.

Fixpoint skip_ws (s : text) : text :=
  match s with
  | c :: r => if is_ws c then skip_ws r else s
  | [] => []
  end.

(** The literal [lit] read off the front of [s]. *)
Fixpoint expect (lit s : text) : option text :=
  match lit, s with
  | [], _ => Some s
  | l :: lit', c :: s' => if Ascii.eqb l c then expect lit' s' else None
  | _ :: _, [] => None
  end.

Definition hex4 (h1 h2 h3 h4 : ascii) : option N :=
  match hex_value h1, hex_value h2, hex_value h3, hex_value h4 with
  | Some a, Some b, Some c, Some d => Some (((a * 16 + b) * 16 + c) * 16 + d)%N
  | _, _, _, _ => None
  end.

Definition simple_escape (e : ascii) : option ascii :=
  if Ascii.eqb e dquote then Some dquote
  else if Ascii.eqb e backslash then Some backslash
  else if Ascii.eqb e "/" then Some "/"%char
  else if Ascii.eqb e "b" then Some "008"%char
  else if Ascii.eqb e "f" then Some "012"%char
  else if Ascii.eqb e "n" then Some "010"%char
  else if Ascii.eqb e "r" then Some "013"%char
  else if Ascii.eqb e "t" then Some "009"%char
  else None.

Definition pres_cons (c : ascii) (p : pres (list ascii)) : pres (list ascii) :=
  match p with
  | Parsed cs r => Parsed (c :: cs) r
  | Fault f => Fault f
  end.

(** The characters of a string literal, after its opening quote, up to and
    including the closing quote. *)
Fixpoint parse_chars (s : text) : pres (list ascii) :=
  match s with
  | [] => Fault Malformed
  | c :: r =>
      if Ascii.eqb c dquote then Parsed [] r
      else if Ascii.eqb c backslash then
        match r with
        | [] => Fault Malformed
        | e :: r1 =>
            match simple_escape e with
            | Some x => pres_cons x (parse_chars r1)
            | None =>
                if Ascii.eqb e "u" then
                  match r1 with
                  | h1 :: h2 :: h3 :: h4 :: r2 =>
                      match hex4 h1 h2 h3 h4 with
                      | Some n =>
                          if (n <? 128)%N
                          then pres_cons (ascii_of_N n) (parse_chars r2)
                          else Fault Unmodelled
                      | None => Fault Malformed
                      end
                  | _ => Fault Malformed
                  end
                else Fault Malformed
            end
        end
      else if (code c <? 32)%N then Fault Malformed
      else if (128 <=? code c)%N then Fault Unmodelled
      else pres_cons c (parse_chars r)
  end.

Definition starts_fraction (s : text) : bool :=
  match s with
  | c :: _ => Ascii.eqb c "." || Ascii.eqb c "e" || Ascii.eqb c "E"
  | [] => false
  end.

(** The digits of a JSON number, after the optional sign: a lone [0], or a
    non-zero digit and the digits after it. *)
Definition parse_int (s : text) : pres Z :=
  match s with
  | [] => Fault Malformed
  | c :: r =>
      match digit_char c with
      | None => Fault Malformed
      | Some _ =>
          let '(ds, r') :=
            if Ascii.eqb c "0" then (Decimal.D0 Decimal.Nil, r) else read_digits s in
          if starts_fraction r' then Fault Unmodelled
          else
            let n := Z.of_N (N.of_uint ds) in
            if (n <=? MAX_SAFE_INTEGER)%Z then Parsed n r' else Fault Unmodelled
      end
  end.

Definition parse_number (s : text) : pres Z :=
  match s with
  | c :: r =>
      if Ascii.eqb c "-" then
        match parse_int r with
        | Parsed n r' => Parsed (- n)%Z r'
        | Fault f => Fault f
        end
      else parse_int s
  | [] => Fault Malformed
  end.

(** *** Objects as [JSON.parse] builds them *)

(** A property key that is an array index: the canonical decimal form of an
    integer up to 2^32 - 2. Such keys are enumerated first, in ascending
    order. *)
Definition array_index (k : string) : option N :=
  match list_ascii_of_string k with
  | [] => None
  | c :: r =>
      let '(ds, r') := read_digits (c :: r) in
      match r' with
      | [] =>
          if Ascii.eqb c "0" && negb (match r with [] => true | _ => false end)
          then None
          else
            let n := N.of_uint ds in
            if (n <=? 4294967294)%N then Some n else None
      | _ :: _ => None
      end
  end.

Fixpoint has_key (k : string) (ps : list (string * json)) : bool :=
  match ps with
  | [] => false
  | (k', _) :: ps' => String.eqb k k' || has_key k ps'
  end.

(** Where a new index key goes: before the first key that is a larger index
    or no index at all. *)
Fixpoint insert_index (n : N) (k : string) (v : json)
    (ps : list (string * json)) : list (string * json) :=
  match ps with
  | [] => [(k, v)]
  | (k', v') :: ps' =>
      match array_index k' with
      | Some m => if (m <? n)%N then (k', v') :: insert_index n k v ps'
                  else (k, v) :: ps
      | None => (k, v) :: ps
      end
  end.

(** CreateDataProperty: a repeated key overwrites in place, a new index key
    is sorted in, a new string key goes last. *)
Definition obj_set (ps : list (string * json)) (kv : string * json)
  : list (string * json) :=
  let '(k, v) := kv in
  if has_key k ps then obj_update k v ps
  else match array_index k with
       | Some n => insert_index n k v ps
       | None => ps ++ [(k, v)]
       end.

Definition build_object (members : list (string * json))
  : list (string * json) :=
  fold_left obj_set members [].

(** *** Values *)

Fixpoint parse_value (fuel : nat) (s : text) {struct fuel} : pres json :=
  match fuel with
  | O => Fault Starved
  | S fuel' =>
      match skip_ws s with
      | [] => Fault Malformed
      | c :: r =>
          if Ascii.eqb c "{" then
            match skip_ws r with
            | c' :: r' =>
                if Ascii.eqb c' "}" then Parsed (JObj []) r'
                else
                  match parse_members fuel' (c' :: r') with
                  | Parsed ms r'' => Parsed (JObj (build_object ms)) r''
                  | Fault f => Fault f
                  end
            | [] => Fault Malformed
            end
          else if Ascii.eqb c "[" then
            match skip_ws r with
            | c' :: r' =>
                if Ascii.eqb c' "]" then Parsed (JArr []) r'
                else
                  match parse_elements fuel' (c' :: r') with
                  | Parsed xs r'' => Parsed (JArr xs) r''
                  | Fault f => Fault f
                  end
            | [] => Fault Malformed
            end
          else if Ascii.eqb c dquote then
            match parse_chars r with
            | Parsed cs r' => Parsed (JStr (string_of_list_ascii cs)) r'
            | Fault f => Fault f
            end
          else if Ascii.eqb c "t" then
            match expect (list_ascii_of_string "rue") r with
            | Some r' => Parsed (JBool true) r'
            | None => Fault Malformed
            end
          else if Ascii.eqb c "f" then
            match expect (list_ascii_of_string "alse") r with
            | Some r' => Parsed (JBool false) r'
            | None => Fault Malformed
            end
          else if Ascii.eqb c "n" then
            match expect (list_ascii_of_string "ull") r with
            | Some r' => Parsed JNull r'
            | None => Fault Malformed
            end
          else
            match parse_number (c :: r) with
            | Parsed n r' => Parsed (JNum n) r'
            | Fault f => Fault f
            end
      end
  end

(** The elements of a non-empty array, up to and including its [\]]. *)
with parse_elements (fuel : nat) (s : text) {struct fuel} : pres (list json) :=
  match fuel with
  | O => Fault Starved
  | S fuel' =>
      match parse_value fuel' s with
      | Fault f => Fault f
      | Parsed x r =>
          match skip_ws r with
          | c :: r' =>
              if Ascii.eqb c "," then
                match parse_elements fuel' r' with
                | Parsed xs r'' => Parsed (x :: xs) r''
                | Fault f => Fault f
                end
              else if Ascii.eqb c "]" then Parsed [x] r'
              else Fault Malformed
          | [] => Fault Malformed
          end
      end
  end

(** The members of a non-empty object, in lexical order, up to and including
    its [}]. *)
with parse_members (fuel : nat) (s : text) {struct fuel}
  : pres (list (string * json)) :=
  match fuel with
  | O => Fault Starved
  | S fuel' =>
      match skip_ws s with
      | c :: r =>
          if Ascii.eqb c dquote then
            match parse_chars r with
            | Fault f => Fault f
            | Parsed cs r1 =>
                match skip_ws r1 with
                | c1 :: r2 =>
                    if Ascii.eqb c1 ":" then
                      match parse_value fuel' r2 with
                      | Fault f => Fault f
                      | Parsed x r3 =>
                          let kv := (string_of_list_ascii cs, x) in
                          match skip_ws r3 with
                          | c3 :: r4 =>
                              if Ascii.eqb c3 "," then
                                match parse_members fuel' r4 with
                                | Parsed ms r5 => Parsed (kv :: ms) r5
                                | Fault f => Fault f
                                end
                              else if Ascii.eqb c3 "}" then Parsed [kv] r4
                              else Fault Malformed
                          | [] => Fault Malformed
                          end
                      end
                    else Fault Malformed
                | [] => Fault Malformed
                end
            end
          else Fault Malformed
      | [] => Fault Malformed
      end
  end.

(** [JSON.parse(s)]: one value, white space around it, nothing else. The
    budget of two steps a character is never used up. *)
Definition JSON_parse (s : string) : res json :=
  let t := list_ascii_of_string s in
  match parse_value (S (2 * List.length t)) t with
  | Parsed v r =>
      match skip_ws r with
      | [] => Ok v
      | _ :: _ => Throw SyntaxError
      end
  | Fault Malformed => Throw SyntaxError
  | Fault Unmodelled => Beyond
  | Fault Starved => Beyond
  end.

(** *** The fragment in which printing and parsing are inverse *)

Definition ascii_only (s : string) : bool :=
  forallb (fun c => (code c <? 128)%N) (list_ascii_of_string s).

(** [k1] may come before [k2] in an object: when [k2] is an array index, so
    is [k1], and a smaller one. *)
Definition key_before (k1 k2 : string) : bool :=
  match array_index k2 with
  | Some n2 => match array_index k1 with
               | Some n1 => (n1 <? n2)%N
               | None => false
               end
  | None => true
  end.

(** Keys as an object enumerates them: no key twice, the array indices
    first and ascending. *)
Fixpoint keys_ordered (ks : list string) : bool :=
  match ks with
  | [] => true
  | k :: ks' =>
      forallb (key_before k) ks' && negb (existsb (String.eqb k) ks')
        && keys_ordered ks'
  end.

(** A value of the fragment: ASCII strings and keys, safe integers, every
    object's properties in enumeration order. *)
Fixpoint canonical (v : json) : bool :=
  match v with
  | JNull | JBool _ => true
  | JNum n => (Z.abs n <=? MAX_SAFE_INTEGER)%Z
  | JStr s => ascii_only s
  | JArr xs => forallb canonical xs
  | JObj ps =>
      forallb (fun p => ascii_only (fst p) && canonical (snd p)) ps
        && keys_ordered (keys ps)
  end.

(** A budget that parses the printed form of [v]. *)
Fixpoint size (v : json) : nat :=
  match v with
  | JArr xs => S (list_sum (map (fun x => S (size x)) xs))
  | JObj ps => S (list_sum (map (fun p => S (size (snd p))) ps))
  | _ => 1
  end.

(** What may follow a printed value: nothing that would continue a number. *)
Definition value_end (s : text) : bool :=
  match s with
  | [] => true
  | c :: _ =>
      match digit_char c with
      | Some _ => false
      | None => negb (starts_fraction s)
      end
  end.

Definition no_digit_ahead (r : text) : Prop :=
  match r with [] => True | c :: _ => digit_char c = None end.

(** A character that starts a value: no white space, no closing bracket. *)
Definition solid (c : ascii) : bool :=
  negb (is_ws c) && negb (Ascii.eqb c "]") && negb (Ascii.eqb c "}").

Definition solid_head (t : text) : bool :=
  match t with c :: _ => solid c | [] => false end.

Definition number_start (c : ascii) : bool :=
  match digit_char c with Some _ => true | None => Ascii.eqb c "-" end.

(** One member of an object as [print] writes it. *)
Definition print_member (ind : nat) (p : string * json) : text :=
  let '(k, x) := p in quote k ++ ":"%char :: " "%char :: print ind x.

Definition roundtrips (v : json) : Prop :=
  forall ind fuel rest,
    canonical v = true -> size v <= fuel -> value_end rest = true ->
    parse_value fuel (print ind v ++ rest) = Parsed v rest.

(** A scan that returns leaves less text than it was given. *)
Definition consumes {A} (p : text -> pres A) : Prop :=
  forall s a r, p s = Parsed a r -> List.length r < List.length s.

End JsonText.

(** ** The Node.js run-time the scripts use *)

Module Node.

(** An absolute, normalised path: its components below the root. *)
Definition path : Type := list string.

(** [path.join(base, seg1, ..., segn)] on a normalised absolute [base]. *)
Fixpoint path_join (base : path) (segs : list string) : path :=
  match segs with
  | [] => base
  | seg :: segs' =>
      if String.eqb seg ".." then path_join (removelast base) segs'
      else if String.eqb seg "." || String.eqb seg "" then path_join base segs'
      else path_join (base ++ [seg]) segs'
  end.

Definition path_string (p : path) : string :=
  match p with
  | [] => "/"
  | _ => String.concat "" (map (fun seg => "/" ++ seg)%string p)
  end.

(** What [console.log] / [console.error] were given. *)
Inductive LogEntry : Type :=
| LogText (s : string)
| LogError (e : JsError).

(** The state a script runs in: the files, the objects [require] has
    loaded (its cache: one shared object per file), and the two consoles. *)
Record World : Type := {
  files : gmap path string;
  modules : gmap path json;
  stdout : list LogEntry;
  stderr : list LogEntry
}.

Definition set_files (f : gmap path string) (w : World) : World :=
  {| files := f; modules := modules w; stdout := stdout w; stderr := stderr w |}.
Definition set_modules (m : gmap path json) (w : World) : World :=
  {| files := files w; modules := m; stdout := stdout w; stderr := stderr w |}.
Definition set_stdout (o : list LogEntry) (w : World) : World :=
  {| files := files w; modules := modules w; stdout := o; stderr := stderr w |}.
Definition set_stderr (e : list LogEntry) (w : World) : World :=
  {| files := files w; modules := modules w; stdout := stdout w; stderr := e |}.

(** How a piece of script ends. *)
Inductive outcome (A : Type) : Type :=
| Returned (a : A)
| Thrown (e : JsError)
| Exited (status : Z)          (* process.exit(status) *)
| OffModel.                  (* the run left the modelled fragment *)
Arguments Returned {A} a.
Arguments Thrown {A} e.
Arguments Exited {A} status.
Arguments OffModel {A}.

Definition proc (A : Type) : Type := World -> World * outcome A.

Definition ret {A} (a : A) : proc A := fun w => (w, Returned a).

Definition bind {A B} (m : proc A) (k : A -> proc B) : proc B :=
  fun w =>
    match m w with
    | (w', Returned a) => k a w'
    | (w', Thrown e) => (w', Thrown e)
    | (w', Exited s) => (w', Exited s)
    | (w', OffModel) => (w', OffModel)
    end.

Declare Scope proc_scope.
Delimit Scope proc_scope with proc.
Bind Scope proc_scope with proc.
Notation "m ;; k" := (bind m (fun _ => k))
  (at level 100, k at level 200, right associativity) : proc_scope.
Notation "'do' x '<-' m ';' k" := (bind m (fun x => k))
  (at level 10, x name, m at level 100, k at level 200) : proc_scope.

Definition lift {A} (r : res A) : proc A :=
  fun w =>
    match r with
    | Ok a => (w, Returned a)
    | Throw e => (w, Thrown e)
    | Beyond => (w, OffModel)
    end.

Definition console_log (e : LogEntry) : proc unit :=
  fun w => (set_stdout (stdout w ++ [e]) w, Returned tt).

Definition console_error (e : LogEntry) : proc unit :=
  fun w => (set_stderr (stderr w ++ [e]) w, Returned tt).

Definition process_exit {A} (status : Z) : proc A :=
  fun w => (w, Exited status).

(** [require(p)] of a [.json] file: the cached object if the file was loaded
    before, else the parsed content, which is cached. *)
Definition require (p : path) : proc json :=
  fun w =>
    match modules w !! p with
    | Some v => (w, Returned v)
    | None =>
        match files w !! p with
        | None => (w, Thrown ModuleNotFound)
        | Some content =>
            match JsonText.JSON_parse content with
            | Ok v => (set_modules (<[p := v]> (modules w)) w, Returned v)
            | Throw e => (w, Thrown e)
            | Beyond => (w, OffModel)
            end
        end
    end.

(** [fs.writeFileSync(p, content)], on a file system that refuses no
    write: the call returns. *)
Definition writeFileSync (p : path) (content : string) : proc unit :=
  fun w => (set_files (<[p := content]> (files w)) w, Returned tt).

(** How the process ended. An uncaught exception ends it with exit code 1;
    what an unhandled rejection does depends on the Node version. *)
Inductive Status : Type :=
| ExitStatus (n : Z)
| Uncaught (e : JsError)
| UnhandledRejection (e : JsError)
| OutsideModel.

(** What is left of a run once the process is gone. *)
Record Final : Type := {
  final_files : gmap path string;
  final_stdout : list LogEntry;
  final_stderr : list LogEntry;
  status : Status
}.

Definition finish (w : World) (s : Status) : Final :=
  {| final_files := files w; final_stdout := stdout w;
     final_stderr := stderr w; status := s |}.

End Node.
Import Node.

(** ** generateIdl.js: the patch step on values *)

Module GenerateIdl.

Definition PROGRAM_NAME : string := "phoenix".

(** [{ name: n, type: { defined: t } }] *)
Definition arg_defined (n t : string) : json :=
  JObj [("name", JStr n); ("type", JObj [("defined", JStr t)])].

(** [{ name: n, type: t }] *)
Definition arg_plain (n t : string) : json :=
  JObj [("name", JStr n); ("type", JStr t)].

(** [instruction.name === n1 || instruction.name === n2 || ...] *)
Definition name_among (instruction : json) (names : list string) : res bool :=
  let* n := get_prop instruction "name" in
  Ok (match n with
      | Some (JStr s) => existsb (String.eqb s) names
      | _ => false
      end).

(** [instruction.args.push(arg)]: only an array has [push]. *)
Definition push_arg (instruction arg : json) : res json :=
  let* a := get_prop instruction "args" in
  match a with
  | Some (JArr xs) => Ok (with_prop instruction "args" (JArr (xs ++ [arg])))
  | _ => Throw TypeError
  end.

(** One [if (...) { instruction.args.push(...) }] block. *)
Definition if_named (names : list string) (arg : json) (instruction : json)
  : res json :=
  let* hit := name_among instruction names in
  if hit then push_arg instruction arg else Ok instruction.

(** The body of the [for] loop: the eleven blocks, in source order. *)
Definition mutateInstruction (i0 : json) : res json :=
  let* i1 := if_named ["ReduceOrder"; "ReduceOrderWithFreeFunds"]
               (arg_defined "params" "ReduceOrderParams") i0 in
  let* i2 := if_named ["CancelMulitpleOrdersById";
                       "CancelMulitpleOrdersByIdWithFreeFunds"]
               (arg_defined "params" "CancelMulitpleOrdersByIdParams") i1 in
  let* i3 := if_named ["PlaceLimitOrder"; "PlaceLimitOrderWithFreeFunds";
                       "Swap"; "SwapWithFreeFunds"]
               (arg_defined "orderPacket" "OrderPacket") i2 in
  let* i4 := if_named ["PlaceMultiplePostOnlyOrders";
                       "PlaceMultiplePostOnlyOrdersWithFreeFunds"]
               (arg_defined "multipleOrderPacket" "MultipleOrderPacket") i3 in
  let* i5 := if_named ["CancelUpTo"; "CancelUpToWithFreeFunds";
                       "ForceCancelOrders"]
               (arg_defined "params" "CancelUpToParams") i4 in
  let* i6 := if_named ["DepositFunds"]
               (arg_defined "depositFundsParams" "DepositParams") i5 in
  let* i7 := if_named ["WithdrawFunds"]
               (arg_defined "withdrawFundsParams" "WithdrawParams") i6 in
  let* i8 := if_named ["ChangeSeatStatus"]
               (arg_defined "approvalStatus" "SeatApprovalStatus") i7 in
  let* i9 := if_named ["ChangeMarketStatus"]
               (arg_defined "marketStatus" "MarketStatus") i8 in
  let* i10 := if_named ["InitializeMarket"]
               (arg_defined "initializeParams" "InitializeParams") i9 in
  if_named ["NameSuccessor"] (arg_plain "successor" "publicKey") i10.

(** [for (const instruction of xs) { ... }] over an array: the first throw
    leaves the loop. *)
Fixpoint for_of (body : json -> res json) (xs : list json) : res (list json) :=
  match xs with
  | [] => Ok []
  | x :: xs' =>
      let* x' := body x in
      let* xs'' := for_of body xs' in
      Ok (x' :: xs'')
  end.

(** The loop of [mutateIdl] on the loaded value. A string is iterable, its
    elements are one-character strings without a [name], so nothing is
    pushed; every other non-array is not iterable. *)
Definition patchIdl (idl : json) : res json :=
  let* ins := get_prop idl "instructions" in
  match ins with
  | Some (JArr xs) =>
      let* xs' := for_of mutateInstruction xs in
      Ok (with_prop idl "instructions" (JArr xs'))
  | Some (JStr _) => Ok idl
  | _ => Throw TypeError
  end.

(** *** The patch table read off the eleven blocks *)

Record PatchRule : Type := { matches : list string; append : json }.

Definition patchTable : list PatchRule :=
  [ {| matches := ["ReduceOrder"; "ReduceOrderWithFreeFunds"];
       append := arg_defined "params" "ReduceOrderParams" |};
    {| matches := ["CancelMulitpleOrdersById";
                   "CancelMulitpleOrdersByIdWithFreeFunds"];
       append := arg_defined "params" "CancelMulitpleOrdersByIdParams" |};
    {| matches := ["PlaceLimitOrder"; "PlaceLimitOrderWithFreeFunds";
                   "Swap"; "SwapWithFreeFunds"];
       append := arg_defined "orderPacket" "OrderPacket" |};
    {| matches := ["PlaceMultiplePostOnlyOrders";
                   "PlaceMultiplePostOnlyOrdersWithFreeFunds"];
       append := arg_defined "multipleOrderPacket" "MultipleOrderPacket" |};
    {| matches := ["CancelUpTo"; "CancelUpToWithFreeFunds"; "ForceCancelOrders"];
       append := arg_defined "params" "CancelUpToParams" |};
    {| matches := ["DepositFunds"];
       append := arg_defined "depositFundsParams" "DepositParams" |};
    {| matches := ["WithdrawFunds"];
       append := arg_defined "withdrawFundsParams" "WithdrawParams" |};
    {| matches := ["ChangeSeatStatus"];
       append := arg_defined "approvalStatus" "SeatApprovalStatus" |};
    {| matches := ["ChangeMarketStatus"];
       append := arg_defined "marketStatus" "MarketStatus" |};
    {| matches := ["InitializeMarket"];
       append := arg_defined "initializeParams" "InitializeParams" |};
    {| matches := ["NameSuccessor"];
       append := arg_plain "successor" "publicKey" |} ].

(** Running a list of rules in order over one instruction. *)
Fixpoint run_rules (rules : list PatchRule) (i : json) : res json :=
  match rules with
  | [] => Ok i
  | r :: rules' =>
      let* i' := if_named (matches r) (append r) i in
      run_rules rules' i'
  end.

Definition rule_hits (name : string) (r : PatchRule) : bool :=
  existsb (String.eqb name) (matches r).

(** The arguments the rules of [rules] push for an instruction called [name]. *)
Definition appended_by (rules : list PatchRule) (name : string) : list json :=
  flat_map (fun r => if rule_hits name r then [append r] else []) rules.

Definition appended (name : string) : list json := appended_by patchTable name.

Definition covered (name : string) : bool := existsb (rule_hits name) patchTable.

(** *** The typed view of a schema *)

Definition instructions_of (idl : json) : option (list json) :=
  match idl with
  | JObj ps => match obj_get "instructions" ps with
               | Some (JArr xs) => Some xs
               | _ => None
               end
  | _ => None
  end.

Definition instr_name (i : json) : option string :=
  match i with
  | JObj ps => match obj_get "name" ps with
               | Some (JStr s) => Some s
               | _ => None
               end
  | _ => None
  end.

Definition instr_args (i : json) : option (list json) :=
  match i with
  | JObj ps => match obj_get "args" ps with
               | Some (JArr xs) => Some xs
               | _ => None
               end
  | _ => None
  end.

(** An Instruction of the data model: an object with a string [name] and an
    array [args]. *)
Definition wf_instruction (i : json) : Prop :=
  is_Some (instr_name i) /\ is_Some (instr_args i).

(** A Schema of the data model, as far as the patcher looks at it. *)
Definition wf_schema (idl : json) : Prop :=
  exists xs, instructions_of idl = Some xs /\ Forall wf_instruction xs.

(** *** What the patcher computes on the typed view *)

(** The instruction with the arguments of its rules appended. *)
Definition patch_instruction (i : json) : json :=
  match instr_name i, instr_args i with
  | Some n, Some a => with_prop i "args" (JArr (a ++ appended n))
  | _, _ => i
  end.

Definition patch_schema (idl : json) : json :=
  match instructions_of idl with
  | Some xs => with_prop idl "instructions" (JArr (map patch_instruction xs))
  | None => idl
  end.

(** Every instruction name a list of rules names. *)
Definition names_of (rules : list PatchRule) : list string :=
  flat_map matches rules.

(** *** The script: its paths, [mutateIdl], the handlers [main] installs *)

Section Script.
(** [__dirname] of the script. *)
Variable dirname : path.

Definition programDir : path := path_join dirname [".."; "program"].
Definition idlDir : path := dirname.
Definition rootDir : path := path_join dirname [".crates"].
Definition cargoToml : path := path_join programDir ["Cargo.toml"].

(** The options [main] hands to [rustbinMatch], and the arguments it spawns
    the extractor with. *)
Record RustbinConfig : Type := {
  config_rootDir : path;
  binaryName : string;
  binaryCrateName : string;
  libName : string;
  dryRun : bool;
  config_cargoToml : path
}.

Definition rustbinConfig : RustbinConfig :=
  {| config_rootDir := rootDir; binaryName := "shank";
     binaryCrateName := "shank-cli"; libName := "shank"; dryRun := false;
     config_cargoToml := cargoToml |}.

Definition shank_arguments : list string :=
  ["idl"; "--out-dir"; path_string idlDir;
   "--crate-root"; path_string programDir].

Definition generatedIdlPath : path :=
  path_join idlDir [(PROGRAM_NAME ++ ".json")%string].

(** The loop works on the object [require] returned, which is the one in
    the cache: after the loop the cache holds the patched object. When the
    loop throws nothing is written and the exception is uncaught, so the
    process ends and the object is never read again; the cache is left
    as it was then. *)
Definition mutateIdl : proc unit :=
  (console_error (LogText "Mutating IDL") ;;
   do idl <- require generatedIdlPath;
   do idl' <- lift (patchIdl idl);
   (fun w => (set_modules (<[generatedIdlPath := idl']> (modules w)) w,
              Returned tt)) ;;
   writeFileSync generatedIdlPath (JsonText.JSON_stringify idl'))%proc.

(** What the child process emits. *)
Inductive ChildEvent : Type :=
| ChildError (code : string)                            (* 'error' *)
| ChildExit (code : option Z) (signal : option string)  (* 'exit' *)
| ChildStdout (buf : string)                            (* stdout 'data' *)
| ChildStderr (buf : string).                           (* stderr 'data' *)

Definition missing_tool_hint : string :=
  ("Ensure that `shank` is installed and in your path, see:"
    ++ String JsonText.LF "  https://github.com/metaplex-foundation/shank"
    ++ String JsonText.LF "")%string.

(** The listener of each event, as [main] registers them. *)
Definition handle (ev : ChildEvent) : proc unit :=
  match ev with
  | ChildError code =>
      (console_error (LogError (ExternalError code)) ;;
       (if String.eqb code "ENOENT"
        then console_error (LogText missing_tool_hint)
        else ret tt) ;;
       process_exit 1)%proc
  | ChildExit _ _ => mutateIdl
  | ChildStdout buf => console_log (LogText buf)
  | ChildStderr buf => console_error (LogText buf)
  end.

(** What happens while the script waits: the child emits an event, or it
    writes a file (the extractor's output). *)
Inductive Step : Type :=
| Emit (ev : ChildEvent)
| ChildWrites (p : path) (content : string).

(** The event loop after [spawn]: listeners run one at a time; an uncaught
    exception or [process.exit] ends the process; when nothing is left to
    wait for, the process ends with status 0. [steps] is the whole life of
    the child: the process waits for a child that has emitted neither
    ['exit'] nor ['error'], so the status at the end of a list without them
    is that of no real run. *)
Fixpoint event_loop (steps : list Step) (w : World) : Final :=
  match steps with
  | [] => finish w (ExitStatus 0)
  | ChildWrites p content :: steps' =>
      event_loop steps' (set_files (<[p := content]> (files w)) w)
  | Emit ev :: steps' =>
      match handle ev w with
      | (w', Returned _) => event_loop steps' w'
      | (w', Thrown e) => finish w' (Uncaught e)
      | (w', Exited s) => finish w' (ExitStatus s)
      | (w', OffModel) => finish w' OutsideModel
      end
  end.

(** [main().catch(...)]: [rustbin] is what [rustbinMatch] settled with (the
    path of the extractor), [steps] the life of the spawned child. *)
Definition main (rustbin : res string) (steps : list Step) (w : World)
  : Final :=
  match rustbin with
  | Ok _ => event_loop steps w
  | Throw e =>
      finish (set_stderr (stderr w ++ [LogError e]) w) (ExitStatus 1)
  | Beyond => finish w OutsideModel
  end.
End Script.

End GenerateIdl.

(** ** generateClient.js *)

Module GenerateClient.

Definition PROGRAM_NAME : string := "phoenix_v1".

Section Script.
Variable dirname : path.

(** [new Solita(idl, { formatCode: true }).renderAndWriteTo(dir)]: the
    client generator, an external library. *)
Variable Solita_render : json -> path -> World -> World * res unit.

Definition idlDir : path := dirname.
Definition sdkDir : path := path_join dirname ["src"; "generated"].

Definition generatedIdlPath : path :=
  path_join idlDir [(PROGRAM_NAME ++ ".json")%string].

Definition external {A} (f : World -> World * res A) : proc A :=
  fun w => let '(w', r) := f w in lift r w'.

Definition generateTypeScriptSDK : proc unit :=
  (console_error
     (LogText ("Generating TypeScript SDK to " ++ path_string sdkDir)%string) ;;
   do idl <- require generatedIdlPath;
   external (Solita_render idl sdkDir) ;;
   console_error (LogText "Success!") ;;
   process_exit 0)%proc.

(** Reading an identifier nothing binds. *)
Definition unbound {A} (ident : string) : proc A :=
  fun w => (w, Thrown (ReferenceError ident)).

(** The callback given to [then]: [conoole.log("done")]. *)
Definition on_done : proc unit := unbound "conoole".

(** [generateTypeScriptSDK().then(on_done)]: the callback runs when the
    first promise fulfils; nothing handles a rejection of either promise
    ([main] does not await them, so its own [catch] never fires). *)
Definition main (w : World) : Final :=
  match (do _ <- generateTypeScriptSDK; on_done)%proc w with
  | (w', Returned _) => finish w' (ExitStatus 0)
  | (w', Thrown e) => finish w' (UnhandledRejection e)
  | (w', Exited s) => finish w' (ExitStatus s)
  | (w', OffModel) => finish w' OutsideModel
  end.
End Script.

End GenerateClient.

(** ** Sample inputs *)

Module Samples.
Import GenerateIdl.

(** A matched instruction that has an argument already, a matched one that
    has none, and an unmatched one. *)
Definition sample_instructions : list json :=
  [ JObj [ ("name", JStr "CancelUpTo");
           ("accounts", JArr []);
           ("args", JArr [arg_plain "tag" "u8"]);
           ("discriminant", JObj [("type", JStr "u8"); ("value", JNum 8)]) ];
    JObj [ ("name", JStr "Swap"); ("args", JArr []) ];
    JObj [ ("name", JStr "Log"); ("args", JArr [arg_plain "tag" "u8"]) ] ].

Definition sample_schema : json :=
  JObj [ ("version", JStr "0.1.0");
         ("name", JStr "phoenix");
         ("instructions", JArr sample_instructions);
         ("types", JArr [JObj [("name", JStr "OrderPacket")]]);
         ("errors", JArr []) ].

(** A schema that went through the patcher once: its [DepositFunds]
    instruction already has the argument the table appends. *)
Definition patched_once : json :=
  JObj [ ("instructions", JArr [
            JObj [ ("name", JStr "DepositFunds");
                   ("args", JArr [arg_defined "depositFundsParams" "DepositParams"]) ] ]);
         ("types", JArr []) ].

(** The same after a second application. *)
Definition patched_twice : json :=
  JObj [ ("instructions", JArr [
            JObj [ ("name", JStr "DepositFunds");
                   ("args", JArr [arg_defined "depositFundsParams" "DepositParams";
                                  arg_defined "depositFundsParams" "DepositParams"]) ] ]);
         ("types", JArr []) ].

(** A schema file without [types], and one without [instructions]. *)
Definition no_types : json := JObj [("instructions", JArr [])].
Definition no_instructions : json := JObj [("types", JArr [])].

Definition world_with (p : path) (content : string) : World :=
  {| files := {[ p := content ]}; modules := ∅; stdout := []; stderr := [] |}.

(** The directory of the two scripts, [/repo/idl]. *)
Definition repo_idl : path := ["repo"; "idl"].

(** [patched_once] as the extractor's file, left over from an earlier run. *)
Definition stale_world : World :=
  world_with (generatedIdlPath repo_idl) (JsonText.JSON_stringify patched_once).

(** The extractor exits with code 1 in [stale_world]. *)
Definition failed_run : Final :=
  main repo_idl (Ok "shank") [Emit (ChildExit (Some 1%Z) None)] stale_world.

(** What an extractor that cannot read the crate does before it exits: it
    complains and writes no file. *)
Definition failing_extraction : list Step :=
  [ Emit (ChildStderr "Error: could not parse the crate") ].

(** The file the client generator reads, holding [sample_schema], and a
    generator that succeeds without writing anything. *)
Definition client_world : World :=
  world_with (GenerateClient.generatedIdlPath repo_idl)
    (JsonText.JSON_stringify sample_schema).

Definition silent_render (idl : json) (dir : path) (w : World)
  : World * res unit := (w, Ok tt).

End Samples.

(** ** More of the patch step *)

Module PatchRuns.
Import GenerateIdl.

(** The loop body does not throw on [i]: [i] is not [null], and when a rule
    names it, its [args] is an array. *)
Definition patchable (i : json) : bool :=
  match i with
  | JNull => false
  | JObj ps =>
      match obj_get "name" ps with
      | Some (JStr n) =>
          if covered n
          then match obj_get "args" ps with
               | Some (JArr _) => true
               | _ => false
               end
          else true
      | _ => true
      end
  | _ => true
  end.


End PatchRuns.

(** ** The values the parser builds *)

Module TextFragment.
Import JsonText.

(** An object member of the fragment. *)
Definition entry_ok (p : string * json) : bool :=
  ascii_only (fst p) && canonical (snd p).

Definition yields {A} (p : text -> pres A) (good : A -> bool) : Prop :=
  forall s a r, p s = Parsed a r -> good a = true.

End TextFragment.

(** ** The life of the extractor, seen from generateIdl.js *)

Module ChildRuns.
Import GenerateIdl.

(** A step that is neither an ['error'] nor an ['exit'] event. *)
Definition quiet (st : Step) : bool :=
  match st with
  | Emit (ChildError _) | Emit (ChildExit _ _) => false
  | _ => true
  end.

(** What the child sent to its standard output, in order. *)
Definition stdout_of (steps : list Step) : list LogEntry :=
  flat_map (fun st => match st with
                      | Emit (ChildStdout buf) => [LogText buf]
                      | _ => []
                      end) steps.

Definition stderr_of (steps : list Step) : list LogEntry :=
  flat_map (fun st => match st with
                      | Emit (ChildStderr buf) => [LogText buf]
                      | _ => []
                      end) steps.

(** The files after the child's own writes. *)
Definition child_writes (steps : list Step) (f : gmap path string)
  : gmap path string :=
  fold_left (fun f st => match st with
                         | ChildWrites p content => <[p := content]> f
                         | _ => f
                         end) steps f.

(** The errors a listener of generateIdl.js can die of. *)
Definition load_or_patch_error (e : JsError) : Prop :=
  e = ModuleNotFound \/ e = SyntaxError \/ e = TypeError.

(** The world after steps none of which is an ['error'] or ['exit'] event. *)
Definition after_quiet (steps : list Step) (w : World) : World :=
  {| files := child_writes steps (files w);
     modules := modules w;
     stdout := stdout w ++ stdout_of steps;
     stderr := stderr w ++ stderr_of steps |}.

End ChildRuns.

(** ** generateClient.js with the formatter (the version that does not call
    [process.exit]) *)

Module GenerateClientFormatted.

Definition PROGRAM_NAME : string := "phoenix_v1".

Section Script.
Variable dirname : path.

(** [new Solita(idl, { formatCode: true }).renderAndWriteTo(dir)] *)
Variable Solita_render : json -> path -> World -> World * res unit.

Definition idlDir : path := dirname.
Definition sdkDir : path := path_join dirname ["src"; "generated"].

Definition generatedIdlPath : path :=
  path_join idlDir [(PROGRAM_NAME ++ ".json")%string].

Definition generateTypeScriptSDK : proc unit :=
  (console_error
     (LogText ("Generating TypeScript SDK to " ++ path_string sdkDir)%string) ;;
   do idl <- require generatedIdlPath;
   GenerateClient.external (Solita_render idl sdkDir))%proc.

(** What the spawned [prettier] emits; with [stdio: "inherit"] its own
    output goes to the terminal, past the script. *)
Inductive FormatterEvent : Type :=
| FormatterError (code : string)                            (* 'error' *)
| FormatterExit (code : option Z) (signal : option string). (* 'exit' *)

Inductive FormatterStep : Type :=
| FormatterEmits (ev : FormatterEvent)
| FormatterWrites (p : path) (content : string).

Definition lint_hint : string :=
  "Failed to lint client files. Try installing prettier (`npm install --save-dev --save-exact prettier`)".

(** The two listeners on the formatter. *)
Definition on_formatter (ev : FormatterEvent) : proc unit :=
  match ev with
  | FormatterError _ => console_error (LogText lint_hint)
  | FormatterExit _ _ => console_log (LogText "Finished linting files.")
  end.

Fixpoint formatter_loop (steps : list FormatterStep) (w : World) : Final :=
  match steps with
  | [] => finish w (ExitStatus 0)
  | FormatterWrites p content :: steps' =>
      formatter_loop steps' (set_files (<[p := content]> (files w)) w)
  | FormatterEmits ev :: steps' =>
      match on_formatter ev w with
      | (w', Returned _) => formatter_loop steps' w'
      | (w', Thrown e) => finish w' (Uncaught e)
      | (w', Exited s) => finish w' (ExitStatus s)
      | (w', OffModel) => finish w' OutsideModel
      end
  end.

(** [generateTypeScriptSDK().then(() => { console.log(...); spawn(...) })]:
    the callback runs when the promise fulfils; a rejection is handled by
    nobody. [steps] is the life of the formatter once spawned. *)
Definition main (steps : list FormatterStep) (w : World) : Final :=
  match generateTypeScriptSDK w with
  | (w1, Returned _) =>
      formatter_loop steps
        (fst (console_log (LogText "Running prettier on generated files...") w1))
  | (w1, Thrown e) => finish w1 (UnhandledRejection e)
  | (w1, Exited s) => finish w1 (ExitStatus s)
  | (w1, OffModel) => finish w1 OutsideModel
  end.
End Script.

(** What the listeners print for a formatter's life. *)
Definition formatter_stdout (steps : list FormatterStep) : list LogEntry :=
  flat_map (fun st => match st with
                      | FormatterEmits (FormatterExit _ _) =>
                          [LogText "Finished linting files."]
                      | _ => []
                      end) steps.

Definition formatter_stderr (steps : list FormatterStep) : list LogEntry :=
  flat_map (fun st => match st with
                      | FormatterEmits (FormatterError _) => [LogText lint_hint]
                      | _ => []
                      end) steps.

Definition formatter_writes (steps : list FormatterStep) (f : gmap path string)
  : gmap path string :=
  fold_left (fun f st => match st with
                         | FormatterWrites p content => <[p := content]> f
                         | _ => f
                         end) steps f.

End GenerateClientFormatted.

(** ** More sample inputs *)

Module MoreSamples.
Import GenerateIdl Samples.

(** An unmatched instruction without [args], and a matched one whose [args]
    is [null]. *)
Definition broken_schema : json :=
  JObj [ ("instructions", JArr [
            JObj [ ("name", JStr "Log") ];
            JObj [ ("name", JStr "DepositFunds"); ("args", JNull) ] ]) ].

(** The extractor prints, writes its file, prints a warning. *)
Definition quiet_steps : list Step :=
  [ Emit (ChildStdout "shank: parsing the crate");
    ChildWrites (generatedIdlPath repo_idl) (JsonText.JSON_stringify sample_schema);
    Emit (ChildStderr "warning: unused import") ].

Definition empty_world : World :=
  {| files := ∅; modules := ∅; stdout := []; stderr := [] |}.

(** A formatter that cannot be started, and one that exits with code 2. *)
Definition formatter_steps : list GenerateClientFormatted.FormatterStep :=
  [ GenerateClientFormatted.FormatterEmits
      (GenerateClientFormatted.FormatterError "ENOENT");
    GenerateClientFormatted.FormatterEmits
      (GenerateClientFormatted.FormatterExit (Some 2%Z) None) ].

End MoreSamples.

(** * Facts *)

Module PatcherFacts.
Import GenerateIdl Samples.

Lemma res_bind_Ok_r {A} (m : res A) : res_bind m Ok = m.
Proof. by destruct m. Qed.

(** ** Property lists *)

Section ObjFacts.
Implicit Types (k : string) (v : json) (ps : list (string * json)).

Lemma obj_get_update_eq k v ps :
  obj_get k (obj_update k v ps) = (fun _ => v) <$> obj_get k ps.
Proof.
  induction ps as [|[k' v'] ps IH]; simpl; [done|].
  destruct (String.eqb k k') eqn:E; simpl; rewrite E; [done|exact IH].
Qed.

Lemma obj_get_update_ne k k' v ps :
  k <> k' -> obj_get k' (obj_update k v ps) = obj_get k' ps.
Proof.
  intros Hne. induction ps as [|[k0 v0] ps IH]; simpl; [done|].
  destruct (String.eqb k k0) eqn:E; simpl.
  - apply String.eqb_eq in E as <-.
    destruct (String.eqb k' k) eqn:E'; [|done].
    apply String.eqb_eq in E'. congruence.
  - by rewrite IH.
Qed.

Lemma obj_update_update k v v' ps :
  obj_update k v (obj_update k v' ps) = obj_update k v ps.
Proof.
  induction ps as [|[k0 v0] ps IH]; simpl; [done|].
  destruct (String.eqb k k0) eqn:E; simpl; rewrite E; [done|by rewrite IH].
Qed.

Lemma obj_update_id k v ps : obj_get k ps = Some v -> obj_update k v ps = ps.
Proof.
  induction ps as [|[k0 v0] ps IH]; simpl; [done|].
  destruct (String.eqb k k0); [by intros [= ->]|].
  intros H. by rewrite IH.
Qed.

Lemma obj_update_inj k v1 v2 ps :
  is_Some (obj_get k ps) -> obj_update k v1 ps = obj_update k v2 ps -> v1 = v2.
Proof.
  induction ps as [|[k0 v0] ps IH]; simpl; [by intros [? [=]]|].
  destruct (String.eqb k k0); [by intros _ [= ->]|].
  intros H [= E]. by apply IH.
Qed.

Lemma keys_update k v ps : keys (obj_update k v ps) = keys ps.
Proof.
  induction ps as [|[k0 v0] ps IH]; simpl; [done|].
  destruct (String.eqb k k0); simpl; [done|]. by f_equal.
Qed.
End ObjFacts.

(** ** The patcher on one instruction *)


Lemma mutateInstruction_run_rules i : mutateInstruction i = run_rules patchTable i.
Proof.
  unfold mutateInstruction, patchTable. simpl.
  repeat match goal with
         | |- res_bind ?m _ = res_bind ?m _ => destruct m; simpl; try reflexivity
         end.
  by rewrite res_bind_Ok_r.
Qed.

Lemma instr_name_Some i n :
  instr_name i = Some n <-> exists ps, i = JObj ps /\ obj_get "name" ps = Some (JStr n).
Proof.
  split.
  - destruct i as [| | | | |ps]; simpl; try done.
    destruct (obj_get "name" ps) as [[]|] eqn:E; try done.
    intros [= ->]. eauto.
  - intros (ps & -> & H). simpl. by rewrite H.
Qed.

Lemma instr_args_Some i a :
  instr_args i = Some a <-> exists ps, i = JObj ps /\ obj_get "args" ps = Some (JArr a).
Proof.
  split.
  - destruct i as [| | | | |ps]; simpl; try done.
    destruct (obj_get "args" ps) as [[]|] eqn:E; try done.
    intros [= ->]. eauto.
  - intros (ps & -> & H). simpl. by rewrite H.
Qed.

Lemma if_named_hit ps name args r :
  obj_get "name" ps = Some (JStr name) ->
  obj_get "args" ps = Some (JArr args) ->
  if_named (matches r) (append r) (JObj ps)
  = Ok (JObj (obj_update "args"
                (JArr (args ++ (if rule_hits name r then [append r] else []))) ps)).
Proof.
  intros Hn Ha. unfold if_named, name_among, push_arg, rule_hits. simpl.
  rewrite Hn. simpl. destruct (existsb _ _); simpl.
  - by rewrite Ha.
  - by rewrite app_nil_r, obj_update_id.
Qed.

Lemma run_rules_named rules : forall ps name args,
  obj_get "name" ps = Some (JStr name) ->
  obj_get "args" ps = Some (JArr args) ->
  run_rules rules (JObj ps)
  = Ok (JObj (obj_update "args" (JArr (args ++ appended_by rules name)) ps)).
Proof.
  induction rules as [|r rules IH]; intros ps name args Hn Ha; simpl.
  - by rewrite app_nil_r, obj_update_id.
  - rewrite (if_named_hit ps name args r Hn Ha). simpl.
    rewrite (IH _ name (args ++ (if rule_hits name r then [append r] else []))).
    + by rewrite obj_update_update, <- app_assoc.
    + by rewrite obj_get_update_ne.
    + by rewrite obj_get_update_eq, Ha.
Qed.

Lemma mutateInstruction_patch i :
  wf_instruction i -> mutateInstruction i = Ok (patch_instruction i).
Proof.
  intros [[n Hn] [a Ha]]. unfold patch_instruction. rewrite Hn, Ha.
  apply instr_name_Some in Hn as (ps & -> & Hn).
  apply instr_args_Some in Ha as (ps' & [= <-] & Ha).
  rewrite mutateInstruction_run_rules. by apply run_rules_named.
Qed.

(** An instruction no rule names goes through every block untouched, whatever
    else it is made of. *)
Lemma if_named_miss names arg i :
  i <> JNull ->
  (forall n, instr_name i = Some n -> existsb (String.eqb n) names = false) ->
  if_named names arg i = Ok i.
Proof.
  intros Hnull Hmiss. unfold if_named, name_among.
  destruct i as [| | | | |ps]; simpl; try done.
  specialize (Hmiss) as H. simpl in H.
  destruct (obj_get "name" ps) as [[]|]; try done.
  by rewrite (H _ eq_refl).
Qed.

Lemma run_rules_miss rules i :
  i <> JNull ->
  (forall n, instr_name i = Some n -> existsb (rule_hits n) rules = false) ->
  run_rules rules i = Ok i.
Proof.
  intros Hnull. induction rules as [|r rules IH]; intros Hmiss; simpl; [done|].
  rewrite if_named_miss; [simpl; apply IH| done |].
  - intros n Hn. specialize (Hmiss n Hn). simpl in Hmiss.
    by apply orb_false_iff in Hmiss as [_ ?].
  - intros n Hn. specialize (Hmiss n Hn). simpl in Hmiss.
    by apply orb_false_iff in Hmiss as [? _].
Qed.

Lemma mutateInstruction_miss i :
  i <> JNull ->
  (forall n, instr_name i = Some n -> covered n = false) ->
  mutateInstruction i = Ok i.
Proof. rewrite mutateInstruction_run_rules. apply run_rules_miss. Qed.

(** ** Which rule speaks for a name *)

Lemma rule_hits_elem name r : rule_hits name r = true <-> name ∈ matches r.
Proof.
  unfold rule_hits. rewrite existsb_exists, list_elem_of_In. split.
  - intros (x & Hx & E). by apply String.eqb_eq in E as ->.
  - intros H. exists name. split; [done|apply String.eqb_refl].
Qed.

Lemma elem_of_names_of rules name :
  name ∈ names_of rules <-> exists r, r ∈ rules /\ name ∈ matches r.
Proof. unfold names_of. rewrite list_elem_of_In, in_flat_map.
  setoid_rewrite list_elem_of_In. done. Qed.

Lemma covered_by_elem rules name :
  existsb (rule_hits name) rules = true <-> name ∈ names_of rules.
Proof.
  rewrite existsb_exists, elem_of_names_of.
  setoid_rewrite rule_hits_elem. by setoid_rewrite list_elem_of_In.
Qed.

Lemma appended_by_miss rules name :
  name ∉ names_of rules -> appended_by rules name = [].
Proof.
  induction rules as [|r rules IH]; simpl; [done|].
  intros H. unfold names_of in H. simpl in H. rewrite elem_of_app in H.
  destruct (rule_hits name r) eqn:E.
  - apply rule_hits_elem in E. tauto.
  - simpl. apply IH. unfold names_of. tauto.
Qed.

Lemma appended_by_unique rules name r :
  NoDup (names_of rules) -> r ∈ rules -> name ∈ matches r ->
  appended_by rules name = [append r].
Proof.
  induction rules as [|r0 rules IH]; [by intros _ ?%elem_of_nil|].
  unfold names_of. simpl.
  intros (Hnd0 & Hdisj & Hnd)%NoDup_app [->|Hin]%elem_of_cons Hname.
  - rewrite (proj2 (rule_hits_elem name r0) Hname). simpl. f_equal.
    apply appended_by_miss. by apply Hdisj.
  - destruct (rule_hits name r0) eqn:E.
    + apply rule_hits_elem in E. exfalso. apply (Hdisj name E).
      apply elem_of_names_of. eauto.
    + simpl. by apply IH.
Qed.

Lemma names_of_patchTable_NoDup : NoDup (names_of patchTable).
Proof. apply (bool_decide_unpack _). by vm_compute. Qed.

Lemma appended_covered name r :
  r ∈ patchTable -> name ∈ matches r -> appended name = [append r].
Proof. apply appended_by_unique, names_of_patchTable_NoDup. Qed.

Lemma appended_uncovered name : covered name = false -> appended name = [].
Proof.
  intros H. apply appended_by_miss. rewrite <- covered_by_elem.
  unfold covered in H. by rewrite H.
Qed.

Lemma covered_true name :
  covered name = true <-> exists r, r ∈ patchTable /\ name ∈ matches r.
Proof. unfold covered. by rewrite covered_by_elem, elem_of_names_of. Qed.

Lemma rules_disjoint_lt rules : forall i j r1 r2 name,
  NoDup (names_of rules) ->
  rules !! i = Some r1 -> rules !! j = Some r2 -> i < j ->
  name ∈ matches r1 -> name ∉ matches r2.
Proof.
  induction rules as [|r0 rules IH]; intros i j r1 r2 name; [done|].
  unfold names_of. simpl. intros (Hnd0 & Hdisj & Hnd)%NoDup_app Hi Hj Hlt Hin.
  destruct j as [|j]; [lia|]. simpl in Hj.
  destruct i as [|i]; simpl in Hi.
  - injection Hi as ->. intros Hin2. apply (Hdisj name Hin).
    apply elem_of_names_of. exists r2. split; [|done].
    by eapply list_elem_of_lookup_2.
  - eapply (IH i j); eauto. lia.
Qed.

Lemma rules_disjoint rules i j r1 r2 name :
  NoDup (names_of rules) ->
  rules !! i = Some r1 -> rules !! j = Some r2 -> i <> j ->
  name ∈ matches r1 -> name ∉ matches r2.
Proof.
  intros Hnd Hi Hj Hne Hin Hin2.
  destruct (Nat.lt_total i j) as [Hlt|[->|Hlt]]; [|done|].
  - by apply (rules_disjoint_lt rules i j r1 r2 name).
  - by apply (rules_disjoint_lt rules j i r2 r1 name).
Qed.

(** ** The patcher on a schema *)

Lemma for_of_patch xs :
  Forall wf_instruction xs ->
  for_of mutateInstruction xs = Ok (map patch_instruction xs).
Proof.
  induction 1 as [|x xs Hx _ IH]; simpl; [done|].
  by rewrite (mutateInstruction_patch x Hx), IH.
Qed.

Lemma instructions_of_Some idl xs :
  instructions_of idl = Some xs <->
  exists ps, idl = JObj ps /\ obj_get "instructions" ps = Some (JArr xs).
Proof.
  split.
  - destruct idl as [| | | | |ps]; simpl; try done.
    destruct (obj_get "instructions" ps) as [[]|] eqn:E; try done.
    intros [= ->]. eauto.
  - intros (ps & -> & H). simpl. by rewrite H.
Qed.

Lemma patchIdl_patch idl :
  wf_schema idl -> patchIdl idl = Ok (patch_schema idl).
Proof.
  intros (xs & Hxs & Hwf). unfold patch_schema. rewrite Hxs.
  apply instructions_of_Some in Hxs as (ps & -> & Hxs).
  unfold patchIdl. simpl. rewrite Hxs. by rewrite (for_of_patch xs Hwf).
Qed.

Lemma instructions_of_patch idl xs :
  instructions_of idl = Some xs ->
  instructions_of (patch_schema idl) = Some (map patch_instruction xs).
Proof.
  intros Hxs. unfold patch_schema. rewrite Hxs.
  apply instructions_of_Some in Hxs as (ps & -> & Hxs). simpl.
  by rewrite obj_get_update_eq, Hxs.
Qed.

Lemma instr_name_patch i : instr_name (patch_instruction i) = instr_name i.
Proof.
  unfold patch_instruction.
  destruct (instr_name i) as [n|] eqn:Hn; [|by rewrite Hn].
  destruct (instr_args i) as [a|] eqn:Ha; [|done].
  apply instr_name_Some in Hn as (ps & -> & Hn). simpl.
  by rewrite obj_get_update_ne, Hn.
Qed.

Lemma instr_args_patch i n a :
  instr_name i = Some n -> instr_args i = Some a ->
  instr_args (patch_instruction i) = Some (a ++ appended n).
Proof.
  intros Hn Ha. unfold patch_instruction. rewrite Hn, Ha.
  apply instr_args_Some in Ha as (ps & -> & Ha). simpl.
  by rewrite obj_get_update_eq, Ha.
Qed.

Lemma wf_instruction_patch i : wf_instruction i -> wf_instruction (patch_instruction i).
Proof.
  intros [[n Hn] [a Ha]]. split.
  - rewrite instr_name_patch, Hn. eauto.
  - rewrite (instr_args_patch i n a Hn Ha). eauto.
Qed.

Lemma wf_schema_patch idl : wf_schema idl -> wf_schema (patch_schema idl).
Proof.
  intros (xs & Hxs & Hwf). exists (map patch_instruction xs). split.
  - by apply instructions_of_patch.
  - apply Forall_map. eapply Forall_impl; [exact Hwf|].
    intros x. apply wf_instruction_patch.
Qed.

Lemma patch_instruction_uncovered i n :
  instr_name i = Some n -> covered n = false -> patch_instruction i = i.
Proof.
  intros Hn Hc. unfold patch_instruction. rewrite Hn.
  destruct (instr_args i) as [a|] eqn:Ha; [|done].
  rewrite (appended_uncovered n Hc), app_nil_r.
  apply instr_args_Some in Ha as (ps & -> & Ha). simpl.
  by rewrite obj_update_id.
Qed.

Lemma sample_schema_wf : wf_schema sample_schema.
Proof.
  eexists. split; [reflexivity|].
  repeat constructor; eexists; reflexivity.
Qed.

(** C5. Order preservation: for an instruction of a schema that a rule of the
    table matches, the patcher succeeds and the instruction's new argument
    sequence is the old one followed by the rule's argument: the appended
    argument sits at index [length args], and every earlier index holds what
    it held before. *)
Theorem patch_appends_last idl xs i instr name args r :
  wf_schema idl ->
  instructions_of idl = Some xs ->
  xs !! i = Some instr ->
  instr_name instr = Some name ->
  instr_args instr = Some args ->
  r ∈ patchTable -> name ∈ matches r ->
  exists idl' xs' instr' args',
    patchIdl idl = Ok idl' /\
    instructions_of idl' = Some xs' /\
    xs' !! i = Some instr' /\
    instr_args instr' = Some args' /\
    args' = args ++ [append r] /\
    args' !! length args = Some (append r) /\
    length args' = S (length args) /\
    (forall j, j < length args -> args' !! j = args !! j).
Proof.
  intros Hwf Hxs Hi Hn Ha Hr Hm.
  exists (patch_schema idl), (map patch_instruction xs),
         (patch_instruction instr), (args ++ [append r]).
  split; [by apply patchIdl_patch|].
  split; [by apply instructions_of_patch|].
  split; [by rewrite list_lookup_fmap, Hi|].
  split; [by rewrite (instr_args_patch _ _ _ Hn Ha), (appended_covered _ _ Hr Hm)|].
  split; [done|].
  split; [by rewrite lookup_app_r, Nat.sub_diag|].
  split; [rewrite length_app; simpl; lia|].
  intros j Hj. by rewrite lookup_app_l.
Qed.

Lemma patch_appends_last_witness :
  exists idl' xs' instr' args',
    patchIdl sample_schema = Ok idl' /\
    instructions_of idl' = Some xs' /\
    xs' !! 0 = Some instr' /\
    instr_args instr' = Some args' /\
    args' = [arg_plain "tag" "u8"] ++ [arg_defined "params" "CancelUpToParams"] /\
    args' !! 1 = Some (arg_defined "params" "CancelUpToParams") /\
    length args' = 2 /\
    (forall j, j < 1 -> args' !! j = [arg_plain "tag" "u8"] !! j).
Proof.
  eapply (patch_appends_last sample_schema _ 0 _ "CancelUpTo"
            [arg_plain "tag" "u8"]
            {| matches := ["CancelUpTo"; "CancelUpToWithFreeFunds"; "ForceCancelOrders"];
               append := arg_defined "params" "CancelUpToParams" |}).
  - exact sample_schema_wf.
  - reflexivity.
  - reflexivity.
  - reflexivity.
  - reflexivity.
  - by apply (list_elem_of_lookup_2 _ 4).
  - by apply (list_elem_of_lookup_2 _ 0).
Defined.

(** C6. Non-interference: an instruction of a schema whose name no rule of
    the table matches comes out of the patcher as it went in, its argument
    sequence included. *)
Theorem unmatched_unchanged idl xs i instr name :
  wf_schema idl ->
  instructions_of idl = Some xs ->
  xs !! i = Some instr ->
  instr_name instr = Some name ->
  (forall r, r ∈ patchTable -> name ∉ matches r) ->
  exists idl' xs',
    patchIdl idl = Ok idl' /\
    instructions_of idl' = Some xs' /\
    xs' !! i = Some instr /\
    (forall instr', xs' !! i = Some instr' -> instr_args instr' = instr_args instr).
Proof.
  intros Hwf Hxs Hi Hn Hmiss.
  assert (patch_instruction instr = instr) as Hid.
  { apply (patch_instruction_uncovered _ name Hn).
    destruct (covered name) eqn:E; [|done].
    apply covered_true in E as (r & Hr & Hm). by destruct (Hmiss r Hr). }
  assert (map patch_instruction xs !! i = Some instr) as Hi'.
  { by rewrite list_lookup_fmap, Hi; simpl; rewrite Hid. }
  exists (patch_schema idl), (map patch_instruction xs).
  split; [by apply patchIdl_patch|].
  split; [by apply instructions_of_patch|].
  split; [done|].
  intros instr'. rewrite Hi'. by intros [= <-].
Qed.

Lemma uncovered_no_rule name :
  covered name = false -> forall r, r ∈ patchTable -> name ∉ matches r.
Proof.
  intros Hc r Hr Hm.
  assert (covered name = true) by (apply covered_true; eauto). congruence.
Qed.

Lemma unmatched_unchanged_witness :
  exists idl' xs',
    patchIdl sample_schema = Ok idl' /\
    instructions_of idl' = Some xs' /\
    xs' !! 2 = Some (JObj [("name", JStr "Log"); ("args", JArr [arg_plain "tag" "u8"])]) /\
    (forall instr', xs' !! 2 = Some instr' ->
      instr_args instr'
      = instr_args (JObj [("name", JStr "Log"); ("args", JArr [arg_plain "tag" "u8"])])).
Proof.
  eapply (unmatched_unchanged sample_schema _ 2 _ "Log").
  - exact sample_schema_wf.
  - reflexivity.
  - reflexivity.
  - reflexivity.
  - apply uncovered_no_rule. reflexivity.
Defined.

(** C7. Rule coverage: the match sets of the table's rules are pairwise
    disjoint; so at most one rule matches a name; and in one application of
    the patcher an instruction whose name the table covers gets exactly one
    more argument, the one of its rule. *)
Theorem rule_coverage :
  (forall i j r1 r2 name,
      patchTable !! i = Some r1 -> patchTable !! j = Some r2 -> i <> j ->
      name ∈ matches r1 -> name ∉ matches r2) /\
  (forall name r1 r2,
      r1 ∈ patchTable -> r2 ∈ patchTable ->
      name ∈ matches r1 -> name ∈ matches r2 -> r1 = r2) /\
  (forall idl xs i instr name args r,
      wf_schema idl ->
      instructions_of idl = Some xs ->
      xs !! i = Some instr ->
      instr_name instr = Some name ->
      instr_args instr = Some args ->
      r ∈ patchTable -> name ∈ matches r ->
      exists idl' xs' instr',
        patchIdl idl = Ok idl' /\
        instructions_of idl' = Some xs' /\
        xs' !! i = Some instr' /\
        instr_name instr' = Some name /\
        instr_args instr' = Some (args ++ [append r]) /\
        length (args ++ [append r]) = S (length args)).
Proof.
  split; [|split].
  - intros i j r1 r2 name. apply rules_disjoint, names_of_patchTable_NoDup.
  - intros name r1 r2 (i & Hi)%list_elem_of_lookup_1 (j & Hj)%list_elem_of_lookup_1 H1 H2.
    destruct (decide (i = j)) as [->|Hne]; [congruence|].
    destruct (rules_disjoint patchTable i j r1 r2 name
                names_of_patchTable_NoDup Hi Hj Hne H1 H2).
  - intros idl xs i instr name args r Hwf Hxs Hi Hn Ha Hr Hm.
    exists (patch_schema idl), (map patch_instruction xs), (patch_instruction instr).
    split; [by apply patchIdl_patch|].
    split; [by apply instructions_of_patch|].
    split; [by rewrite list_lookup_fmap, Hi|].
    split; [by rewrite instr_name_patch|].
    split; [by rewrite (instr_args_patch _ _ _ Hn Ha), (appended_covered _ _ Hr Hm)|].
    rewrite length_app. simpl. lia.
Qed.

Lemma rule_coverage_witness :
  exists idl' xs' instr',
    patchIdl sample_schema = Ok idl' /\
    instructions_of idl' = Some xs' /\
    xs' !! 1 = Some instr' /\
    instr_name instr' = Some "Swap" /\
    instr_args instr' = Some ([] ++ [arg_defined "orderPacket" "OrderPacket"]) /\
    length ([] ++ [arg_defined "orderPacket" "OrderPacket"]) = 1.
Proof.
  eapply (proj2 (proj2 rule_coverage) sample_schema _ 1 _ "Swap" []
            {| matches := ["PlaceLimitOrder"; "PlaceLimitOrderWithFreeFunds";
                           "Swap"; "SwapWithFreeFunds"];
               append := arg_defined "orderPacket" "OrderPacket" |}).
  - exact sample_schema_wf.
  - reflexivity.
  - reflexivity.
  - reflexivity.
  - reflexivity.
  - by apply (list_elem_of_lookup_2 _ 2).
  - by apply (list_elem_of_lookup_2 _ 2).
Defined.

Lemma get_prop_with_prop_ne o k k' v :
  k <> k' -> get_prop (with_prop o k v) k' = get_prop o k'.
Proof.
  intros Hne. destruct o; simpl; try done. by rewrite obj_get_update_ne.
Qed.

Lemma obj_keys_with_prop o k v : obj_keys (with_prop o k v) = obj_keys o.
Proof. destruct o; simpl; try done. apply keys_update. Qed.

Lemma get_prop_patch_instruction i k :
  k <> "args" -> get_prop (patch_instruction i) k = get_prop i k.
Proof.
  intros Hne. unfold patch_instruction.
  destruct (instr_name i); [|done]. destruct (instr_args i); [|done].
  by apply get_prop_with_prop_ne.
Qed.

Lemma obj_keys_patch_instruction i : obj_keys (patch_instruction i) = obj_keys i.
Proof.
  unfold patch_instruction.
  destruct (instr_name i); [|done]. destruct (instr_args i); [|done].
  apply obj_keys_with_prop.
Qed.

(** C9. Frame: on a schema the patcher succeeds and leaves everything but
    matched instructions' arguments alone. Every top-level property other
    than [instructions] ([types] and [errors] among them) holds the value it
    held, the top-level keys and their order are the same; there are as many
    instructions, each at its index with the same name, the same keys and the
    same value under every key but [args]; and an instruction no rule matches
    is the same value altogether. *)
Theorem patch_frame idl xs :
  wf_schema idl ->
  instructions_of idl = Some xs ->
  exists idl' xs',
    patchIdl idl = Ok idl' /\
    get_prop idl' "types" = get_prop idl "types" /\
    get_prop idl' "errors" = get_prop idl "errors" /\
    (forall k, k <> "instructions" -> get_prop idl' k = get_prop idl k) /\
    obj_keys idl' = obj_keys idl /\
    instructions_of idl' = Some xs' /\
    length xs' = length xs /\
    (forall i instr, xs !! i = Some instr ->
       exists instr',
         xs' !! i = Some instr' /\
         instr_name instr' = instr_name instr /\
         obj_keys instr' = obj_keys instr /\
         (forall k, k <> "args" -> get_prop instr' k = get_prop instr k) /\
         (forall name, instr_name instr = Some name -> covered name = false ->
                       instr' = instr)).
Proof.
  intros Hwf Hxs.
  exists (patch_schema idl), (map patch_instruction xs).
  assert (forall k, k <> "instructions" ->
                    get_prop (patch_schema idl) k = get_prop idl k) as Hframe.
  { intros k Hk. unfold patch_schema. rewrite Hxs.
    by apply get_prop_with_prop_ne. }
  split; [by apply patchIdl_patch|].
  split; [by apply Hframe|].
  split; [by apply Hframe|].
  split; [done|].
  split; [unfold patch_schema; rewrite Hxs; apply obj_keys_with_prop|].
  split; [by apply instructions_of_patch|].
  split; [apply length_map|].
  intros i instr Hi. exists (patch_instruction instr).
  split; [by rewrite list_lookup_fmap, Hi|].
  split; [apply instr_name_patch|].
  split; [apply obj_keys_patch_instruction|].
  split; [intros k; apply get_prop_patch_instruction|].
  intros name. apply patch_instruction_uncovered.
Qed.

Lemma patch_frame_witness :
  exists idl' xs',
    patchIdl sample_schema = Ok idl' /\
    get_prop idl' "types" = get_prop sample_schema "types" /\
    get_prop idl' "errors" = get_prop sample_schema "errors" /\
    (forall k, k <> "instructions" -> get_prop idl' k = get_prop sample_schema k) /\
    obj_keys idl' = obj_keys sample_schema /\
    instructions_of idl' = Some xs' /\
    length xs' = length sample_instructions /\
    (forall i instr,
       sample_instructions !! i = Some instr ->
       exists instr',
         xs' !! i = Some instr' /\
         instr_name instr' = instr_name instr /\
         obj_keys instr' = obj_keys instr /\
         (forall k, k <> "args" -> get_prop instr' k = get_prop instr k) /\
         (forall name, instr_name instr = Some name -> covered name = false ->
                       instr' = instr)).
Proof.
  eapply (patch_frame sample_schema sample_instructions).
  - exact sample_schema_wf.
  - reflexivity.
Defined.

Lemma appended_nil_iff name : appended name = [] <-> covered name = false.
Proof.
  split; [|apply appended_uncovered].
  destruct (covered name) eqn:E; [|done].
  apply covered_true in E as (r & Hr & Hm).
  by rewrite (appended_covered name r Hr Hm).
Qed.

Lemma patch_instruction_twice i n a :
  instr_name i = Some n -> instr_args i = Some a ->
  patch_instruction (patch_instruction i)
  = with_prop i "args" (JArr (a ++ appended n ++ appended n)).
Proof.
  intros Hn Ha. unfold patch_instruction at 1.
  rewrite instr_name_patch, Hn, (instr_args_patch i n a Hn Ha).
  unfold patch_instruction. rewrite Hn, Ha.
  apply instr_args_Some in Ha as (ps & -> & Ha). simpl.
  by rewrite obj_update_update, <- app_assoc.
Qed.

Lemma patch_instruction_stable i :
  wf_instruction i ->
  patch_instruction (patch_instruction i) = patch_instruction i <->
  (forall n, instr_name i = Some n -> covered n = false).
Proof.
  intros [[n Hn] [a Ha]]. rewrite (patch_instruction_twice i n a Hn Ha).
  unfold patch_instruction. rewrite Hn, Ha.
  apply instr_args_Some in Ha as (ps & -> & Ha). simpl. split.
  - intros [= E] n' [= <-].
    apply obj_update_inj in E; [|by rewrite Ha].
    injection E as E. apply appended_nil_iff.
    apply (f_equal length) in E. rewrite !length_app in E.
    apply length_zero_iff_nil. lia.
  - intros H. by rewrite (appended_uncovered n (H n eq_refl)), !app_nil_r.
Qed.

Lemma patch_schema_twice idl xs :
  instructions_of idl = Some xs ->
  patch_schema (patch_schema idl)
  = with_prop idl "instructions"
      (JArr (map patch_instruction (map patch_instruction xs))).
Proof.
  intros Hxs. unfold patch_schema at 1.
  rewrite (instructions_of_patch idl xs Hxs).
  unfold patch_schema. rewrite Hxs.
  apply instructions_of_Some in Hxs as (ps & -> & Hxs). simpl.
  by rewrite obj_update_update.
Qed.

(** C1 (amended). On a schema the patcher succeeds, and so does a second
    application to its result. The two results are equal exactly when no
    instruction of the schema has a name the table covers. The patcher looks
    at no argument name: an instruction a rule matches has the rule's
    argument appended by each application, so after two it ends with two
    copies of it. *)
Theorem patch_twice idl xs :
  wf_schema idl ->
  instructions_of idl = Some xs ->
  exists idl1 idl2,
    patchIdl idl = Ok idl1 /\
    patchIdl idl1 = Ok idl2 /\
    (idl2 = idl1 <->
     forall instr name,
       instr ∈ xs -> instr_name instr = Some name -> covered name = false) /\
    (forall i instr name args r,
       xs !! i = Some instr ->
       instr_name instr = Some name ->
       instr_args instr = Some args ->
       r ∈ patchTable -> name ∈ matches r ->
       exists xs2 instr2,
         instructions_of idl2 = Some xs2 /\
         xs2 !! i = Some instr2 /\
         instr_args instr2 = Some (args ++ [append r; append r])).
Proof.
  intros Hwf Hxs.
  exists (patch_schema idl), (patch_schema (patch_schema idl)).
  split; [by apply patchIdl_patch|].
  split; [by apply patchIdl_patch, wf_schema_patch|].
  destruct Hwf as (xs0 & Hxs0 & Hall).
  assert (xs0 = xs) as -> by congruence. clear Hxs0.
  split.
  - rewrite (patch_schema_twice idl xs Hxs). unfold patch_schema. rewrite Hxs.
    apply instructions_of_Some in Hxs as (ps & -> & Hxs). simpl.
    rewrite Forall_forall in Hall. split.
    + intros [= E] instr name Hin Hn.
      apply obj_update_inj in E; [|by rewrite Hxs]. injection E as E.
      rewrite map_map in E.
      rewrite map_ext_in_iff in E.
      apply list_elem_of_In in Hin as Hin'.
      by apply (proj1 (patch_instruction_stable instr (Hall instr Hin)) (E instr Hin')).
    + intros H. do 2 f_equal. f_equal. rewrite map_map. apply map_ext_in.
      intros instr Hin%list_elem_of_In.
      apply (patch_instruction_stable instr (Hall instr Hin)).
      intros n. by apply H.
  - intros i instr name args r Hi Hn Ha Hr Hm.
    exists (map patch_instruction (map patch_instruction xs)),
           (patch_instruction (patch_instruction instr)).
    split; [by apply instructions_of_patch, instructions_of_patch|].
    split; [by rewrite !list_lookup_fmap, Hi|].
    rewrite (instr_args_patch _ name (args ++ appended name)).
    + by rewrite (appended_covered name r Hr Hm), <- app_assoc.
    + by rewrite instr_name_patch.
    + by apply instr_args_patch.
Qed.

Lemma patch_twice_witness :
  exists idl1 idl2,
    patchIdl patched_once = Ok idl1 /\
    patchIdl idl1 = Ok idl2 /\
    (idl2 = idl1 <->
     forall instr name,
       instr ∈ default [] (instructions_of patched_once) ->
       instr_name instr = Some name -> covered name = false) /\
    (forall i instr name args r,
       default [] (instructions_of patched_once) !! i = Some instr ->
       instr_name instr = Some name ->
       instr_args instr = Some args ->
       r ∈ patchTable -> name ∈ matches r ->
       exists xs2 instr2,
         instructions_of idl2 = Some xs2 /\
         xs2 !! i = Some instr2 /\
         instr_args instr2 = Some (args ++ [append r; append r])).
Proof.
  apply (patch_twice patched_once).
  - eexists. split; [reflexivity|]. repeat constructor; eexists; reflexivity.
  - reflexivity.
Defined.

(** C1 as stated fails: the argument sequence of [DepositFunds] already has an
    argument named [depositFundsParams], yet the patcher appends a second
    one, so the patch is no no-op there; and applying the patcher twice does
    not give what applying it once gives. *)
Lemma patch_not_idempotent :
  instr_args (JObj [ ("name", JStr "DepositFunds");
                     ("args", JArr [arg_defined "depositFundsParams" "DepositParams"]) ])
  = Some [arg_defined "depositFundsParams" "DepositParams"] /\
  patchIdl patched_once = Ok patched_twice /\
  patched_twice <> patched_once /\
  res_bind (patchIdl patched_once) patchIdl <> patchIdl patched_once.
Proof. repeat split; try reflexivity; discriminate. Qed.

End PatcherFacts.

(** * JSON text *)

Module TextFacts.
Import JsonText.

(** ** Digits *)

Lemma read_digits_uint_text d r :
  no_digit_ahead r -> read_digits (uint_text d ++ r) = (d, r).
Proof.
  intros Hr. induction d; simpl; try by rewrite IHd.
  destruct r as [|c r]; simpl; [done|]. simpl in Hr. by rewrite Hr.
Qed.

Lemma uint_text_head d :
  match uint_text d with
  | [] => d = Decimal.Nil
  | c :: _ => is_Some (digit_char c) /\
              (Ascii.eqb c "0" = true -> exists d', d = Decimal.D0 d')
  end.
Proof. destruct d; simpl; try done; split; eauto; discriminate. Qed.

Lemma to_uint_not_D0 p d : Pos.to_uint p <> Decimal.D0 d.
Proof.
  intros E.
  destruct (Decimal.uint_eq_dec d Decimal.Nil) as [->|Hd].
  { by apply (DecimalPos.Unsigned.to_uint_nonzero p). }
  pose proof (DecimalPos.Unsigned.to_of (Pos.to_uint p)) as H.
  rewrite DecimalPos.Unsigned.of_to in H. simpl in H.
  rewrite E, DecimalFacts.unorm_D0 in H.
  pose proof (DecimalFacts.nb_digits_unorm d Hd) as Hle.
  rewrite <- H in Hle. simpl in Hle. lia.
Qed.

Lemma parse_int_cons c s :
  parse_int (c :: s)
  = match digit_char c with
    | None => Fault Malformed
    | Some _ =>
        let '(ds, r') :=
          if Ascii.eqb c "0" then (Decimal.D0 Decimal.Nil, s)
          else read_digits (c :: s) in
        if starts_fraction r' then Fault Unmodelled
        else
          let n := Z.of_N (N.of_uint ds) in
          if (n <=? MAX_SAFE_INTEGER)%Z then Parsed n r' else Fault Unmodelled
    end.
Proof. reflexivity. Qed.

Lemma parse_int_pos p r :
  (Zpos p <= MAX_SAFE_INTEGER)%Z -> value_end r = true ->
  parse_int (uint_text (Pos.to_uint p) ++ r) = Parsed (Zpos p) r.
Proof.
  intros Hmax Hend.
  assert (no_digit_ahead r /\ starts_fraction r = false) as [Hnd Hnf].
  { destruct r as [|c r]; simpl in *; [done|].
    destruct (digit_char c); [done|]. split; [done|].
    by apply negb_true_iff in Hend. }
  pose proof (uint_text_head (Pos.to_uint p)) as Hhead.
  pose proof (read_digits_uint_text (Pos.to_uint p) r Hnd) as Hread.
  destruct (uint_text (Pos.to_uint p)) as [|c t] eqn:Et.
  { by destruct (DecimalPos.Unsigned.to_uint_nonnil p). }
  destruct Hhead as [[f Hf] Hzero].
  change ((c :: t) ++ r) with (c :: (t ++ r)) in *.
  rewrite parse_int_cons, Hf.
  destruct (Ascii.eqb c "0") eqn:E0.
  { destruct (Hzero eq_refl) as [d' Hd']. by destruct (to_uint_not_D0 p d'). }
  rewrite Hread, Hnf.
  change (N.of_uint (Pos.to_uint p)) with (Pos.of_uint (Pos.to_uint p)).
  rewrite DecimalPos.Unsigned.of_to. simpl Z.of_N. cbv zeta.
  by apply Z.leb_le in Hmax as ->.
Qed.

Lemma parse_number_print n r :
  (Z.abs n <= MAX_SAFE_INTEGER)%Z -> value_end r = true ->
  parse_number (print_number n ++ r) = Parsed n r.
Proof.
  intros Hmax Hend. destruct n as [|p|p]; simpl.
  - unfold parse_int. simpl.
    destruct r as [|c r]; [done|]. simpl in Hend.
    destruct (digit_char c); [done|].
    apply negb_true_iff in Hend. simpl. by rewrite Hend.
  - pose proof (uint_text_head (Pos.to_uint p)) as Hhead.
    pose proof (parse_int_pos p r Hmax Hend) as Hp.
    destruct (uint_text (Pos.to_uint p)) as [|c t] eqn:Et.
    { by destruct (DecimalPos.Unsigned.to_uint_nonnil p). }
    destruct Hhead as [[f Hf] _]. simpl.
    destruct (Ascii.eqb c "-") eqn:E; [|exact Hp].
    apply Ascii.eqb_eq in E as ->. done.
  - by rewrite (parse_int_pos p r Hmax Hend).
Qed.

(** ** Strings *)

Lemma parse_chars_escape c t :
  (code c <? 128)%N = true ->
  parse_chars (escape_char c ++ t) = pres_cons c (parse_chars t).
Proof.
  destruct c as [[] [] [] [] [] [] [] []]; intros H;
    first [discriminate H | reflexivity].
Qed.

Lemma parse_chars_quote cs r :
  forallb (fun c => (code c <? 128)%N) cs = true ->
  parse_chars (flat_map escape_char cs ++ dquote :: r) = Parsed cs r.
Proof.
  induction cs as [|c cs IH]; simpl; [done|].
  intros [Hc Hcs]%andb_true_iff.
  by rewrite <- app_assoc, (parse_chars_escape c _ Hc), (IH Hcs).
Qed.

(** ** White space *)

Lemma skip_ws_spaces k s : skip_ws (repeat " "%char k ++ s) = skip_ws s.
Proof. induction k as [|k IH]; simpl; [done|exact IH]. Qed.

Lemma skip_ws_newline k s : skip_ws (newline k ++ s) = skip_ws s.
Proof. unfold newline. simpl. apply skip_ws_spaces. Qed.

Lemma skip_ws_solid c s : is_ws c = false -> skip_ws (c :: s) = c :: s.
Proof. simpl. by intros ->. Qed.

Lemma parse_value_newline fuel k s :
  parse_value fuel (newline k ++ s) = parse_value fuel s.
Proof. destruct fuel; simpl; [done|]. by rewrite skip_ws_spaces. Qed.

Lemma parse_elements_newline fuel k s :
  parse_elements fuel (newline k ++ s) = parse_elements fuel s.
Proof.
  destruct fuel as [|fuel]; [done|].
  change (parse_elements (S fuel) ?t)
    with (match parse_value fuel t with
          | Fault f => Fault f
          | Parsed x r =>
              match skip_ws r with
              | c :: r' =>
                  if Ascii.eqb c "," then
                    match parse_elements fuel r' with
                    | Parsed xs r'' => Parsed (x :: xs) r''
                    | Fault f => Fault f
                    end
                  else if Ascii.eqb c "]" then Parsed [x] r'
                  else Fault Malformed
              | [] => Fault Malformed
              end
          end).
  by rewrite parse_value_newline.
Qed.

(** ** The first character of a printed value *)

Lemma print_number_head n :
  exists c t, print_number n = c :: t /\ number_start c = true.
Proof.
  destruct n as [|p|p]; simpl; [by eexists _, _| |by eexists _, _].
  pose proof (uint_text_head (Pos.to_uint p)) as H.
  destruct (uint_text (Pos.to_uint p)) as [|c t].
  - by destruct (DecimalPos.Unsigned.to_uint_nonnil p).
  - destruct H as [[f Hf] _]. exists c, t. split; [done|].
    unfold number_start. by rewrite Hf.
Qed.

Lemma number_start_solid c : number_start c = true -> solid c = true.
Proof.
  destruct c as [[] [] [] [] [] [] [] []]; intros H;
    first [discriminate H | reflexivity].
Qed.

Lemma print_head ind v :
  exists c t, print ind v = c :: t /\ solid c = true.
Proof.
  destruct v as [|[]|n|s|[|x xs]|[|p ps]]; simpl; try by eexists _, _.
  destruct (print_number_head n) as (c & t & -> & H).
  exists c, t. split; [done|]. by apply number_start_solid.
Qed.

Lemma parse_value_number fuel c s :
  number_start c = true ->
  parse_value (S fuel) (c :: s)
  = match parse_number (c :: s) with
    | Parsed n r' => Parsed (JNum n) r'
    | Fault f => Fault f
    end.
Proof.
  destruct c as [[] [] [] [] [] [] [] []]; intros H;
    first [discriminate H | reflexivity].
Qed.

(** ** Unfolding the parser *)

Lemma parse_elements_S fuel s :
  parse_elements (S fuel) s
  = match parse_value fuel s with
    | Fault f => Fault f
    | Parsed x r =>
        match skip_ws r with
        | c :: r' =>
            if Ascii.eqb c "," then
              match parse_elements fuel r' with
              | Parsed xs r'' => Parsed (x :: xs) r''
              | Fault f => Fault f
              end
            else if Ascii.eqb c "]" then Parsed [x] r'
            else Fault Malformed
        | [] => Fault Malformed
        end
    end.
Proof. reflexivity. Qed.

Lemma parse_members_S fuel c r :
  is_ws c = false ->
  parse_members (S fuel) (c :: r)
  = if Ascii.eqb c dquote then
      match parse_chars r with
      | Fault f => Fault f
      | Parsed cs r1 =>
          match skip_ws r1 with
          | c1 :: r2 =>
              if Ascii.eqb c1 ":" then
                match parse_value fuel r2 with
                | Fault f => Fault f
                | Parsed x r3 =>
                    let kv := (string_of_list_ascii cs, x) in
                    match skip_ws r3 with
                    | c3 :: r4 =>
                        if Ascii.eqb c3 "," then
                          match parse_members fuel r4 with
                          | Parsed ms r5 => Parsed (kv :: ms) r5
                          | Fault f => Fault f
                          end
                        else if Ascii.eqb c3 "}" then Parsed [kv] r4
                        else Fault Malformed
                    | [] => Fault Malformed
                    end
                end
              else Fault Malformed
          | [] => Fault Malformed
          end
      end
    else Fault Malformed.
Proof. intros H. simpl. by rewrite H. Qed.

Lemma parse_members_newline fuel k s :
  parse_members fuel (newline k ++ s) = parse_members fuel s.
Proof. destruct fuel; simpl; [done|]. by rewrite skip_ws_spaces. Qed.

Lemma parse_value_array fuel k t :
  solid_head t = true ->
  parse_value (S fuel) ("["%char :: newline k ++ t)
  = match parse_elements fuel t with
    | Parsed xs r'' => Parsed (JArr xs) r''
    | Fault f => Fault f
    end.
Proof.
  destruct t as [|c r]; [done|]. simpl solid_head. intros H. unfold solid in H.
  apply andb_true_iff in H as [[Hw Hb]%andb_true_iff _].
  apply negb_true_iff in Hw, Hb. simpl. rewrite skip_ws_spaces. simpl.
  by rewrite Hw, Hb.
Qed.

Lemma parse_value_object fuel k t :
  solid_head t = true ->
  parse_value (S fuel) ("{"%char :: newline k ++ t)
  = match parse_members fuel t with
    | Parsed ms r'' => Parsed (JObj (build_object ms)) r''
    | Fault f => Fault f
    end.
Proof.
  destruct t as [|c r]; [done|]. simpl solid_head. intros H. unfold solid in H.
  apply andb_true_iff in H as [[Hw _]%andb_true_iff Hb].
  apply negb_true_iff in Hw, Hb. simpl. rewrite skip_ws_spaces. simpl.
  by rewrite Hw, Hb.
Qed.

Lemma parse_value_space fuel s :
  parse_value fuel (" "%char :: s) = parse_value fuel s.
Proof. by destruct fuel. Qed.

(** ** Printing, then parsing *)

Lemma value_end_newline k s : value_end (newline k ++ s) = true.
Proof. reflexivity. Qed.

Lemma join_map_cons2 {A} (f : A -> text) sep x x' xs tail :
  join_map f sep (x :: x' :: xs) ++ tail
  = f x ++ sep ++ (join_map f sep (x' :: xs) ++ tail).
Proof. simpl. by rewrite <- !app_assoc. Qed.

Lemma elements_roundtrip xs :
  Forall roundtrips xs -> xs <> [] ->
  forall ind k fuel rest,
    forallb canonical xs = true ->
    list_sum (map (fun x => S (size x)) xs) <= fuel ->
    parse_elements fuel
      (join_map (print ind) (","%char :: newline ind) xs
         ++ newline k ++ "]"%char :: rest)
    = Parsed xs rest.
Proof.
  induction 1 as [|x xs Hx Hxs IH]; [done|].
  intros _ ind k fuel rest [Cx Cxs]%andb_true_iff Hfuel.
  simpl in Hfuel. destruct fuel as [|fuel]; [lia|].
  rewrite parse_elements_S.
  destruct xs as [|x' xs'].
  - simpl join_map.
    rewrite (Hx ind fuel _ Cx ltac:(lia) (value_end_newline k _)).
    rewrite skip_ws_newline. reflexivity.
  - rewrite join_map_cons2.
    set (tail := join_map _ _ (x' :: xs') ++ _).
    rewrite (Hx ind fuel ((","%char :: newline ind) ++ tail) Cx ltac:(lia) eq_refl).
    change (skip_ws ((","%char :: newline ind) ++ tail))
      with (","%char :: newline ind ++ tail).
    change (Ascii.eqb "," ",") with true. cbv iota.
    rewrite parse_elements_newline. subst tail.
    rewrite (IH ltac:(done) ind k fuel rest Cxs); [done|].
    simpl in *. lia.
Qed.

Lemma members_roundtrip ps :
  Forall (fun p => roundtrips (snd p)) ps -> ps <> [] ->
  forall ind k fuel rest,
    forallb (fun p => ascii_only (fst p) && canonical (snd p)) ps = true ->
    list_sum (map (fun p => S (size (snd p))) ps) <= fuel ->
    parse_members fuel
      (join_map (print_member ind) (","%char :: newline ind) ps
         ++ newline k ++ "}"%char :: rest)
    = Parsed ps rest.
Proof.
  induction 1 as [|[key x] ps Hx Hps IH]; [done|].
  intros _ ind k fuel rest [[Ck Cx]%andb_true_iff Cps]%andb_true_iff Hfuel.
  simpl in Hfuel, Hx, Ck, Cx. destruct fuel as [|fuel]; [lia|].
  assert (forall tail, value_end tail = true ->
    parse_members (S fuel) (print_member ind (key, x) ++ tail)
    = match skip_ws tail with
      | c3 :: r4 =>
          if Ascii.eqb c3 "," then
            match parse_members fuel r4 with
            | Parsed ms r5 => Parsed ((key, x) :: ms) r5
            | Fault f => Fault f
            end
          else if Ascii.eqb c3 "}" then Parsed [(key, x)] r4
          else Fault Malformed
      | [] => Fault Malformed
      end) as Hone.
  { intros tail Htail. unfold print_member, quote.
    rewrite <- !app_assoc. simpl app.
    rewrite parse_members_S by reflexivity.
    change (Ascii.eqb dquote dquote) with true. cbv iota.
    rewrite <- app_assoc. simpl app.
    rewrite (parse_chars_quote _ _ Ck).
    change (skip_ws (":"%char :: ?t)) with (":"%char :: t).
    change (Ascii.eqb ":" ":") with true. cbv iota.
    rewrite parse_value_space.
    rewrite (Hx ind fuel tail Cx ltac:(lia) Htail).
    by rewrite string_of_list_ascii_of_string. }
  destruct ps as [|p' ps'].
  - simpl join_map. rewrite Hone by reflexivity.
    rewrite skip_ws_newline. reflexivity.
  - rewrite join_map_cons2.
    set (tail := join_map _ _ (p' :: ps') ++ _).
    rewrite Hone by reflexivity.
    change (skip_ws ((","%char :: newline ind) ++ tail))
      with (","%char :: newline ind ++ tail).
    change (Ascii.eqb "," ",") with true. cbv iota.
    rewrite parse_members_newline. subst tail.
    rewrite (IH ltac:(done) ind k fuel rest Cps); [done|].
    simpl in *. lia.
Qed.

(** ** Objects in property order are what the parser builds *)

Lemma keys_ordered_before l1 k l2 :
  keys_ordered (l1 ++ k :: l2) = true ->
  Forall (fun k' => key_before k' k = true /\ String.eqb k' k = false) l1.
Proof.
  induction l1 as [|k' l1 IH]; simpl; [constructor|].
  intros [[Hb Hn]%andb_true_iff Ho]%andb_true_iff.
  constructor; [|by apply IH].
  rewrite forallb_app in Hb. apply andb_true_iff in Hb as [_ Hb].
  simpl in Hb. apply andb_true_iff in Hb as [Hb _].
  apply negb_true_iff in Hn. rewrite existsb_app in Hn.
  apply orb_false_iff in Hn as [_ Hn]. simpl in Hn.
  by apply orb_false_iff in Hn as [Hn _].
Qed.

Lemma has_key_fresh k (acc : list (string * json)) :
  Forall (fun k' => String.eqb k' k = false) (keys acc) -> has_key k acc = false.
Proof.
  induction acc as [|[k' v'] acc IH]; simpl; [done|].
  intros [Hk Hacc]%Forall_cons. rewrite (IH Hacc), String.eqb_sym, Hk. done.
Qed.

Lemma insert_index_last n k v (acc : list (string * json)) :
  array_index k = Some n ->
  Forall (fun k' => key_before k' k = true) (keys acc) ->
  insert_index n k v acc = acc ++ [(k, v)].
Proof.
  intros Hk. induction acc as [|[k' v'] acc IH]; simpl; [done|].
  intros [Hb Hacc]%Forall_cons. unfold key_before in Hb. rewrite Hk in Hb.
  destruct (array_index k') as [m|]; [|done].
  by rewrite Hb, (IH Hacc).
Qed.

Lemma obj_set_last k v (acc : list (string * json)) :
  Forall (fun k' => key_before k' k = true /\ String.eqb k' k = false) (keys acc) ->
  obj_set acc (k, v) = acc ++ [(k, v)].
Proof.
  intros H. unfold obj_set.
  rewrite has_key_fresh by (eapply Forall_impl; [exact H|]; by intros ? [_ ?]).
  destruct (array_index k) as [n|] eqn:Hk; [|done].
  apply insert_index_last; [done|].
  eapply Forall_impl; [exact H|]. by intros ? [? _].
Qed.

Lemma fold_obj_set_ordered ps : forall acc,
  keys_ordered (keys (acc ++ ps)) = true ->
  fold_left obj_set ps acc = acc ++ ps.
Proof.
  induction ps as [|[k v] ps IH]; intros acc H; cbn [fold_left].
  - by rewrite app_nil_r.
  - rewrite obj_set_last.
    + rewrite IH; rewrite <- app_assoc; done.
    + unfold keys in H. rewrite map_app in H. simpl in H.
      by apply keys_ordered_before in H.
Qed.

Lemma build_object_ordered ps :
  keys_ordered (keys ps) = true -> build_object ps = ps.
Proof. intros H. by apply (fold_obj_set_ordered ps []). Qed.

(** ** The round trip of one value *)

Lemma join_map_head {A} (f : A -> text) sep xs tail :
  xs <> [] -> (forall x, solid_head (f x) = true) ->
  solid_head (join_map f sep xs ++ tail) = true.
Proof.
  intros Hne Hf. destruct xs as [|x xs]; [done|].
  assert (forall more, solid_head (f x ++ more) = true) as H.
  { intros more. specialize (Hf x). by destruct (f x). }
  destruct xs; simpl; [apply H|]. rewrite <- app_assoc. apply H.
Qed.

Lemma print_solid_head ind v : solid_head (print ind v) = true.
Proof. by destruct (print_head ind v) as (c & t & -> & H). Qed.

Lemma print_member_solid_head ind p : solid_head (print_member ind p) = true.
Proof. by destruct p. Qed.

Lemma print_roundtrips v : roundtrips v.
Proof.
  induction v as [|b|n|s|xs IH|ps IH] using json_nested_ind;
    intros ind fuel rest Hc Hfuel Hend;
    (destruct fuel as [|fuel]; [simpl in Hfuel; lia|]).
  - reflexivity.
  - by destruct b.
  - simpl in Hc. apply Z.leb_le in Hc.
    destruct (print_number_head n) as (c & t & E & Hstart).
    simpl print. pose proof (parse_number_print n rest Hc Hend) as Hp.
    rewrite E in *. simpl app in *.
    by rewrite (parse_value_number fuel c _ Hstart), Hp.
  - simpl in Hc. simpl print. unfold quote. simpl.
    rewrite <- app_assoc. simpl.
    rewrite (parse_chars_quote _ _ Hc).
    by rewrite string_of_list_ascii_of_string.
  - destruct xs as [|x xs]; [reflexivity|].
    change (print ind (JArr (x :: xs)))
      with ("["%char :: newline (S ind)
              ++ join_map (print (S ind)) (","%char :: newline (S ind)) (x :: xs)
              ++ newline ind ++ ["]"%char]).
    rewrite <- app_comm_cons, <- !app_assoc.
    rewrite parse_value_array
      by (apply join_map_head; [done|apply print_solid_head]).
    change (["]"%char] ++ rest) with ("]"%char :: rest).
    rewrite (elements_roundtrip (x :: xs) IH ltac:(done)); [done|exact Hc|].
    simpl in Hfuel |- *. lia.
  - destruct ps as [|p ps]; [reflexivity|].
    simpl in Hc. apply andb_true_iff in Hc as [Hc Hord].
    change (print ind (JObj (p :: ps)))
      with ("{"%char :: newline (S ind)
              ++ join_map (print_member (S ind)) (","%char :: newline (S ind)) (p :: ps)
              ++ newline ind ++ ["}"%char]).
    rewrite <- app_comm_cons, <- !app_assoc.
    rewrite parse_value_object
      by (apply join_map_head; [done|apply print_member_solid_head]).
    change (["}"%char] ++ rest) with ("}"%char :: rest).
    rewrite (members_roundtrip (p :: ps) IH ltac:(done)); [|exact Hc|].
    + by rewrite build_object_ordered.
    + simpl in Hfuel |- *. lia.
Qed.

(** ** Enough fuel for a printed text *)

Lemma join_map_size {A} (f : A -> text) (g : A -> nat) sep xs :
  sep <> [] -> Forall (fun x => g x <= length (f x)) xs ->
  list_sum (map (fun x => S (g x)) xs) <= S (length (join_map f sep xs)).
Proof.
  intros Hsep. induction 1 as [|x xs Hx Hxs IH]; simpl; [lia|].
  destruct xs as [|x' xs'].
  - simpl. lia.
  - rewrite !length_app.
    assert (1 <= length sep) by (destruct sep; [done|simpl; lia]).
    simpl in IH |- *. lia.
Qed.

Lemma print_number_nonempty n : 1 <= length (print_number n).
Proof. destruct (print_number_head n) as (c & t & -> & _). simpl. lia. Qed.

Lemma size_le_print v : forall ind, size v <= length (print ind v).
Proof.
  induction v as [|b|n|s|xs IH|ps IH] using json_nested_ind; intros ind.
  - simpl. lia.
  - destruct b; simpl; lia.
  - apply print_number_nonempty.
  - simpl. lia.
  - destruct xs as [|x xs]; [simpl; lia|].
    change (print ind (JArr (x :: xs)))
      with ("["%char :: newline (S ind)
              ++ join_map (print (S ind)) (","%char :: newline (S ind)) (x :: xs)
              ++ newline ind ++ ["]"%char]).
    pose proof (join_map_size (print (S ind)) size
                  (","%char :: newline (S ind)) (x :: xs) ltac:(done)) as H.
    cbn [size]. cbn [length]. rewrite !length_app. cbn [length].
    assert (Forall (fun x => size x <= length (print (S ind) x)) (x :: xs)) as HF.
    { eapply Forall_impl; [exact IH|]. intros y Hy. apply Hy. }
    specialize (H HF). simpl newline. cbn [length]. lia.
  - destruct ps as [|p ps]; [simpl; lia|].
    change (print ind (JObj (p :: ps)))
      with ("{"%char :: newline (S ind)
              ++ join_map (print_member (S ind)) (","%char :: newline (S ind)) (p :: ps)
              ++ newline ind ++ ["}"%char]).
    pose proof (join_map_size (print_member (S ind)) (fun p => size (snd p))
                  (","%char :: newline (S ind)) (p :: ps) ltac:(done)) as H.
    cbn [size]. cbn [length]. rewrite !length_app. cbn [length].
    assert (Forall (fun p => size (snd p) <= length (print_member (S ind) p))
              (p :: ps)) as HF.
    { eapply Forall_impl; [exact IH|]. intros [k y] Hy. simpl in Hy |- *.
      rewrite length_app. simpl. specialize (Hy (S ind)). lia. }
    specialize (H HF). simpl newline. cbn [length]. lia.
Qed.

(** [JSON.parse(JSON.stringify(v, null, 2))] is [v] again. *)
Lemma JSON_parse_stringify v :
  canonical v = true -> JSON_parse (JSON_stringify v) = Ok v.
Proof.
  intros Hc. unfold JSON_parse, JSON_stringify.
  rewrite list_ascii_of_string_of_list_ascii.
  pose proof (print_roundtrips v 0 (S (2 * length (print 0 v))) [] Hc
                ltac:(pose proof (size_le_print v 0); lia) eq_refl) as H.
  rewrite app_nil_r in H. by rewrite H.
Qed.

(** ** The parser's budget is never used up *)

Lemma skip_ws_length s : length (skip_ws s) <= length s.
Proof.
  induction s as [|c s IH]; simpl; [done|].
  destruct (is_ws c); simpl; lia.
Qed.

Lemma expect_length lit : forall s r,
  expect lit s = Some r -> length r <= length s.
Proof.
  induction lit as [|l lit IH]; intros [|c s] r; simpl; try done.
  - by intros [= <-].
  - by intros [= <-].
  - destruct (Ascii.eqb l c); [|done]. intros H%IH. lia.
Qed.

Lemma pres_cons_Parsed c p cs r :
  pres_cons c p = Parsed cs r -> exists cs', p = Parsed cs' r.
Proof. destruct p; simpl; [|done]. intros [= _ ->]. eauto. Qed.

Ltac split_match H :=
  match type of H with
  | match ?x with _ => _ end = _ => destruct x eqn:?; try discriminate H
  end.

Lemma parse_chars_length n : forall s cs r,
  length s <= n -> parse_chars s = Parsed cs r -> length r < length s.
Proof.
  induction n as [|n IH]; intros [|c s] cs r Hn; simpl in *; try done; try lia.
  intros H. repeat split_match H.
  - injection H as _ ->. lia.
  - apply pres_cons_Parsed in H as [cs' H]. apply IH in H; simpl in *; lia.
  - apply pres_cons_Parsed in H as [cs' H]. apply IH in H; simpl in *; lia.
  - apply pres_cons_Parsed in H as [cs' H]. apply IH in H; simpl in *; lia.
Qed.

Lemma read_digits_length s : forall d r,
  read_digits s = (d, r) -> length r <= length s.
Proof.
  induction s as [|c s IH]; simpl; intros d r.
  - by intros [= _ <-].
  - destruct (digit_char c).
    + destruct (read_digits s) as [ds r'] eqn:E. intros [= _ <-].
      specialize (IH _ _ eq_refl). lia.
    + intros [= _ <-]. simpl. lia.
Qed.

Lemma read_digits_digit c s d r :
  is_Some (digit_char c) -> read_digits (c :: s) = (d, r) -> length r <= length s.
Proof.
  intros [f Hf]. simpl. rewrite Hf.
  destruct (read_digits s) as [ds r'] eqn:E. intros [= _ <-].
  by apply read_digits_length in E.
Qed.

Lemma parse_int_length s n r :
  parse_int s = Parsed n r -> length r < length s.
Proof.
  destruct s as [|c s]; [done|]. rewrite parse_int_cons.
  destruct (digit_char c) as [f|] eqn:Hf; [|done].
  destruct (Ascii.eqb c "0").
  - intros H. cbv beta iota zeta in H. repeat split_match H.
    injection H as _ <-. simpl. lia.
  - destruct (read_digits (c :: s)) as [ds r'] eqn:E.
    apply read_digits_digit in E; [|by rewrite Hf].
    intros H. cbv beta iota zeta in H. repeat split_match H.
    injection H as _ <-. simpl. lia.
Qed.

Lemma parse_number_length s n r :
  parse_number s = Parsed n r -> length r < length s.
Proof.
  destruct s as [|c s]; [done|]. unfold parse_number.
  destruct (Ascii.eqb c "-").
  - destruct (parse_int s) as [m r'|] eqn:E; [|done].
    intros [= _ <-]. apply parse_int_length in E. simpl. lia.
  - apply parse_int_length.
Qed.

Lemma parse_chars_shorter s cs r :
  parse_chars s = Parsed cs r -> length r < length s.
Proof. by apply (parse_chars_length (length s)). Qed.

Ltac length_facts :=
  repeat match goal with
    | H : skip_ws ?s = _ |- _ =>
        let L := fresh "L" in
        pose proof (skip_ws_length s) as L; rewrite H in L; clear H
    | H : parse_chars _ = Parsed _ _ |- _ => apply parse_chars_shorter in H
    | H : expect _ _ = Some _ |- _ => apply expect_length in H
    | H : parse_number _ = Parsed _ _ |- _ => apply parse_number_length in H
    | IH : consumes ?p, H : ?p _ = Parsed _ _ |- _ => apply IH in H
    | H : Parsed _ _ = Parsed _ _ |- _ => injection H as ? ?; subst
    end.

Lemma parser_consumes fuel :
  consumes (parse_value fuel) /\ consumes (parse_elements fuel)
  /\ consumes (parse_members fuel).
Proof.
  induction fuel as [|fuel (IHv & IHe & IHm)]; [by repeat split|].
  repeat split; intros s a r H.
  - cbn [parse_value] in H.
    repeat split_match H; length_facts; simpl in *; lia.
  - cbn [parse_elements] in H.
    repeat split_match H; length_facts; simpl in *; lia.
  - cbn [parse_members] in H.
    repeat split_match H; length_facts; simpl in *; lia.
Qed.

Lemma parse_chars_unstarved s : parse_chars s <> Fault Starved.
Proof.
  induction s as [s IH] using (induction_ltof1 _ (@length ascii)).
  unfold ltof in IH.
  destruct s as [|c s]; [done|]. simpl. intros H.
  repeat split_match H;
    match goal with
    | H : pres_cons _ (parse_chars ?t) = _ |- _ =>
        destruct (parse_chars t) as [|[]] eqn:E; try discriminate H;
        apply (IH t); [simpl; lia|done]
    end.
Qed.

Lemma parse_number_unstarved s : parse_number s <> Fault Starved.
Proof.
  assert (forall t, parse_int t <> Fault Starved) as Hint.
  { intros [|c t]; [done|]. rewrite parse_int_cons. intros H.
    repeat (split_match H; cbv zeta in H). }
  destruct s as [|c s]; [done|]. unfold parse_number. intros H.
  repeat split_match H; try injection H as ->; eapply Hint; eassumption.
Qed.

Ltac starved_facts :=
  repeat match goal with
    | H : skip_ws ?s = _ |- _ =>
        let L := fresh "L" in
        pose proof (skip_ws_length s) as L; rewrite H in L; clear H
    | H : parse_chars _ = Parsed _ _ |- _ => apply parse_chars_shorter in H
    | H : parse_chars _ = Fault _ |- _ =>
        apply parse_chars_unstarved in H; destruct H
    | H : parse_number _ = Fault _ |- _ =>
        apply parse_number_unstarved in H; destruct H
    | H : expect _ _ = Some _ |- _ => apply expect_length in H
    | H : parse_value ?f _ = Parsed _ _ |- _ =>
        apply (proj1 (parser_consumes f)) in H
    | H : Fault _ = Fault Starved |- _ => injection H as ->
    end.

Lemma parser_unstarved fuel :
  (forall s, 2 * length s < fuel -> parse_value fuel s <> Fault Starved) /\
  (forall s, 2 * length s + 1 < fuel -> parse_elements fuel s <> Fault Starved) /\
  (forall s, 2 * length s + 1 < fuel -> parse_members fuel s <> Fault Starved).
Proof.
  induction fuel as [|fuel (IHv & IHe & IHm)]; [repeat split; intros; lia|].
  repeat split; intros s Hs H.
  - cbn [parse_value] in H.
    repeat split_match H; starved_facts;
      first [ eapply IHe; [|eassumption]; simpl in *; lia
            | eapply IHm; [|eassumption]; simpl in *; lia ].
  - cbn [parse_elements] in H.
    repeat split_match H; starved_facts;
      first [ eapply IHv; [|eassumption]; simpl in *; lia
            | eapply IHe; [|eassumption]; simpl in *; lia ].
  - cbn [parse_members] in H.
    repeat split_match H; starved_facts;
      first [ eapply IHv; [|eassumption]; simpl in *; lia
            | eapply IHm; [|eassumption]; simpl in *; lia ].
Qed.

(** [JSON_parse] answers [Beyond] only for a text that leaves the modelled
    fragment, never for want of budget. *)
Lemma JSON_parse_budget s :
  parse_value (S (2 * length (list_ascii_of_string s))) (list_ascii_of_string s)
  <> Fault Starved.
Proof. apply parser_unstarved. lia. Qed.

End TextFacts.

(** * The scripts *)

Module ScriptFacts.
Import JsonText GenerateIdl Samples PatcherFacts TextFacts ChildRuns.

(** ** generateIdl.js as a process *)


Lemma require_fresh p w content v :
  modules w !! p = None -> files w !! p = Some content ->
  JSON_parse content = Ok v ->
  require p w = (set_modules (<[p := v]> (modules w)) w, Returned v).
Proof. intros Hm Hf Hp. unfold require. by rewrite Hm, Hf, Hp. Qed.

Lemma mutateIdl_patched dirname w content v v' :
  modules w !! generatedIdlPath dirname = None ->
  files w !! generatedIdlPath dirname = Some content ->
  JSON_parse content = Ok v ->
  patchIdl v = Ok v' ->
  exists w',
    mutateIdl dirname w = (w', Returned tt) /\
    files w' = <[generatedIdlPath dirname := JSON_stringify v']> (files w) /\
    stdout w' = stdout w /\
    stderr w' = stderr w ++ [LogText "Mutating IDL"].
Proof.
  intros Hm Hf Hp Hpatch. unfold mutateIdl, bind, console_error.
  rewrite (require_fresh _ _ content v); [|done..].
  unfold lift. rewrite Hpatch. unfold writeFileSync. simpl.
  eexists. split; [reflexivity|]. done.
Qed.

Lemma mutateIdl_throws dirname w content v e :
  modules w !! generatedIdlPath dirname = None ->
  files w !! generatedIdlPath dirname = Some content ->
  JSON_parse content = Ok v ->
  patchIdl v = Throw e ->
  exists w',
    mutateIdl dirname w = (w', Thrown e) /\ files w' = files w.
Proof.
  intros Hm Hf Hp Hpatch. unfold mutateIdl, bind, console_error.
  rewrite (require_fresh _ _ content v); [|done..].
  unfold lift. rewrite Hpatch. eexists. split; [reflexivity|]. done.
Qed.

(** The listeners of the output streams and the child's own writes leave
    the script where it was but for the consoles and the files. *)
Lemma after_quiet_nil w : after_quiet [] w = w.
Proof. destruct w. unfold after_quiet. simpl. by rewrite !app_nil_r. Qed.

Lemma quiet_prefix dirname before : forall rest w,
  forallb quiet before = true ->
  event_loop dirname (before ++ rest) w
  = event_loop dirname rest (after_quiet before w).
Proof.
  induction before as [|st before IH]; intros rest w Hq.
  - by rewrite after_quiet_nil.
  - simpl in Hq. apply andb_true_iff in Hq as [Hst Hq].
    destruct st as [[code|code signal|buf|buf]|p content]; try done; simpl;
      rewrite (IH rest _ Hq); f_equal; unfold after_quiet; simpl;
      by rewrite <- ?app_assoc.
Qed.

(** C2 (amended). The listener of the child's [exit] event runs the patch
    step whatever exit code or signal the event carries; the exit status is
    not looked at, and no run depends on the code or signal of an [exit]
    event. When the child exits, successfully or not, with a well-formed
    schema in the schema file, the step is announced, the file is rewritten
    with the patched schema and the process ends with status 0. When the
    child emits a spawn [error] instead, the [error] listener ends the
    process with status 1 and the script writes nothing: the files stay as the
    child left them. *)
Theorem patch_runs_on_any_exit dirname bin before code signal w content v :
  forallb quiet before = true ->
  modules w !! generatedIdlPath dirname = None ->
  child_writes before (files w) !! generatedIdlPath dirname = Some content ->
  JSON_parse content = Ok v ->
  wf_schema v ->
  (patchIdl v = Ok (patch_schema v) /\
   final_files (main dirname (Ok bin) (before ++ [Emit (ChildExit code signal)]) w)
   = <[generatedIdlPath dirname := JSON_stringify (patch_schema v)]>
       (child_writes before (files w)) /\
   final_stderr (main dirname (Ok bin) (before ++ [Emit (ChildExit code signal)]) w)
   = stderr w ++ stderr_of before ++ [LogText "Mutating IDL"] /\
   status (main dirname (Ok bin) (before ++ [Emit (ChildExit code signal)]) w)
   = ExitStatus 0) /\
  (forall rustbin steps after code' signal' w',
      main dirname rustbin (steps ++ Emit (ChildExit code signal) :: after) w'
      = main dirname rustbin (steps ++ Emit (ChildExit code' signal') :: after) w') /\
  (forall errcode after,
      final_files
        (main dirname (Ok bin) (before ++ Emit (ChildError errcode) :: after) w)
      = child_writes before (files w) /\
      status
        (main dirname (Ok bin) (before ++ Emit (ChildError errcode) :: after) w)
      = ExitStatus 1).
Proof.
  intros Hq Hm Hf Hp Hwf. split; [|split].
  - pose proof (patchIdl_patch v Hwf) as Hpatch.
    destruct (mutateIdl_patched dirname (after_quiet before w) content v _
                Hm Hf Hp Hpatch) as (w' & Hrun & Hfiles & _ & Herr).
    split; [done|]. unfold main. rewrite (quiet_prefix dirname before _ w Hq).
    simpl. rewrite Hrun. simpl. rewrite Hfiles, Herr. simpl.
    by rewrite <- app_assoc.
  - intros rustbin steps after code' signal' w'.
    unfold main. destruct rustbin; try done.
    revert w'. induction steps as [|step steps IH]; intros w'; [done|].
    simpl. destruct step as [ev|p c]; [|apply IH].
    destruct (handle dirname ev w') as [w'' [| | |]]; [apply IH|done..].
  - intros errcode after. unfold main.
    rewrite (quiet_prefix dirname before _ w Hq). simpl.
    unfold bind, console_error, process_exit.
    destruct (String.eqb errcode "ENOENT"); done.
Qed.

Lemma patch_runs_on_any_exit_witness :
  (patchIdl patched_once = Ok (patch_schema patched_once) /\
   final_files (main repo_idl (Ok "shank")
                  (failing_extraction ++ [Emit (ChildExit (Some 1%Z) None)])
                  stale_world)
   = <[generatedIdlPath repo_idl := JSON_stringify (patch_schema patched_once)]>
       (child_writes failing_extraction (files stale_world)) /\
   final_stderr (main repo_idl (Ok "shank")
                   (failing_extraction ++ [Emit (ChildExit (Some 1%Z) None)])
                   stale_world)
   = stderr stale_world ++ stderr_of failing_extraction
       ++ [LogText "Mutating IDL"] /\
   status (main repo_idl (Ok "shank")
             (failing_extraction ++ [Emit (ChildExit (Some 1%Z) None)])
             stale_world)
   = ExitStatus 0) /\
  (forall rustbin steps after code' signal' w',
      main repo_idl rustbin
        (steps ++ Emit (ChildExit (Some 1%Z) None) :: after) w'
      = main repo_idl rustbin
          (steps ++ Emit (ChildExit code' signal') :: after) w') /\
  (forall errcode after,
      final_files
        (main repo_idl (Ok "shank")
           (failing_extraction ++ Emit (ChildError errcode) :: after) stale_world)
      = child_writes failing_extraction (files stale_world) /\
      status
        (main repo_idl (Ok "shank")
           (failing_extraction ++ Emit (ChildError errcode) :: after) stale_world)
      = ExitStatus 1).
Proof.
  apply (patch_runs_on_any_exit repo_idl "shank" failing_extraction
           (Some 1%Z) None stale_world
           (JSON_stringify patched_once) patched_once).
  - reflexivity.
  - reflexivity.
  - reflexivity.
  - vm_compute. reflexivity.
  - eexists. split; [reflexivity|]. repeat constructor; eexists; reflexivity.
Defined.

(** C2 as stated fails: the extractor exits with code 1 and the schema file,
    left over from an earlier run, is patched and rewritten all the same. *)
Lemma failed_extraction_still_patches :
  files stale_world !! generatedIdlPath repo_idl
  = Some (JSON_stringify patched_once) /\
  final_files failed_run !! generatedIdlPath repo_idl
  = Some (JSON_stringify patched_twice) /\
  JSON_stringify patched_twice <> JSON_stringify patched_once /\
  status failed_run = ExitStatus 0.
Proof.
  split; [reflexivity|]. split; [vm_compute; reflexivity|].
  split; [vm_compute; discriminate|vm_compute; reflexivity].
Qed.

(** ** Loading *)

(** C4 (amended). Loading checks no field. A file that is missing makes
    [require] throw (module not found), a text that is no JSON makes it throw
    a SyntaxError, and any JSON text loads as the value it denotes, with or
    without [instructions] or [types]. What a missing [instructions] breaks
    is the patch loop, with a TypeError and nothing written; [types] is never
    looked at, the patch step succeeds on every schema. *)
Theorem load_checks_no_field dirname w content v :
  modules w !! generatedIdlPath dirname = None ->
  files w !! generatedIdlPath dirname = Some content ->
  JSON_parse content = Ok v ->
  snd (require (generatedIdlPath dirname) w) = Returned v /\
  (get_prop v "instructions" = Ok None ->
     exists w', mutateIdl dirname w = (w', Thrown TypeError) /\
                files w' = files w) /\
  (wf_schema v ->
     exists v' w',
       patchIdl v = Ok v' /\
       mutateIdl dirname w = (w', Returned tt) /\
       files w' = <[generatedIdlPath dirname := JSON_stringify v']> (files w)) /\
  (forall w0 e,
     snd (require (generatedIdlPath dirname) w0) = Thrown e ->
     e = ModuleNotFound /\ files w0 !! generatedIdlPath dirname = None \/
     e = SyntaxError /\
       exists text, files w0 !! generatedIdlPath dirname = Some text /\
                    JSON_parse text = Throw SyntaxError).
Proof.
  intros Hm Hf Hp. split; [|split; [|split]].
  - by rewrite (require_fresh _ _ content v).
  - intros Hnone.
    apply (mutateIdl_throws dirname w content v TypeError Hm Hf Hp).
    unfold patchIdl. by rewrite Hnone.
  - intros Hwf. pose proof (patchIdl_patch v Hwf) as Hpatch.
    destruct (mutateIdl_patched dirname w content v _ Hm Hf Hp Hpatch)
      as (w' & Hrun & Hfiles & _).
    by exists (patch_schema v), w'.
  - intros w0 e. unfold require.
    destruct (modules w0 !! generatedIdlPath dirname); [done|].
    destruct (files w0 !! generatedIdlPath dirname) as [text|] eqn:Ht.
    + destruct (JSON_parse text) as [a|e'|] eqn:Hparse; simpl; try done.
      intros [= ->]. right.
      assert (e = SyntaxError) as ->.
      { unfold JSON_parse in Hparse.
        destruct (parse_value _ _) as [a r|[]]; try done.
        - destruct (skip_ws r); [done|]. by injection Hparse as <-.
        - by injection Hparse as <-. }
      eauto.
    + simpl. intros [= <-]. by left.
Qed.

Lemma load_checks_no_field_witness :
  snd (require (generatedIdlPath repo_idl)
         (world_with (generatedIdlPath repo_idl) (JSON_stringify no_types)))
  = Returned no_types /\
  (get_prop no_types "instructions" = Ok None ->
     exists w',
       mutateIdl repo_idl
         (world_with (generatedIdlPath repo_idl) (JSON_stringify no_types))
       = (w', Thrown TypeError) /\
       files w'
       = files (world_with (generatedIdlPath repo_idl) (JSON_stringify no_types))) /\
  (wf_schema no_types ->
     exists v' w',
       patchIdl no_types = Ok v' /\
       mutateIdl repo_idl
         (world_with (generatedIdlPath repo_idl) (JSON_stringify no_types))
       = (w', Returned tt) /\
       files w'
       = <[generatedIdlPath repo_idl := JSON_stringify v']>
           (files (world_with (generatedIdlPath repo_idl) (JSON_stringify no_types)))) /\
  (forall w0 e,
     snd (require (generatedIdlPath repo_idl) w0) = Thrown e ->
     e = ModuleNotFound /\ files w0 !! generatedIdlPath repo_idl = None \/
     e = SyntaxError /\
       exists text, files w0 !! generatedIdlPath repo_idl = Some text /\
                    JSON_parse text = Throw SyntaxError).
Proof.
  apply (load_checks_no_field repo_idl
           (world_with (generatedIdlPath repo_idl) (JSON_stringify no_types))
           (JSON_stringify no_types) no_types).
  - reflexivity.
  - reflexivity.
  - vm_compute. reflexivity.
Defined.

(** C4 as stated fails: the file has no [types], yet it loads, and the whole
    patch step goes through and ends with status 0. A file without
    [instructions] loads as well. *)
Lemma missing_types_loads :
  get_prop no_types "types" = Ok None /\
  snd (require (generatedIdlPath repo_idl)
         (world_with (generatedIdlPath repo_idl) (JSON_stringify no_types)))
  = Returned no_types /\
  status (main repo_idl (Ok "shank") [Emit (ChildExit (Some 0%Z) None)]
            (world_with (generatedIdlPath repo_idl) (JSON_stringify no_types)))
  = ExitStatus 0 /\
  get_prop no_instructions "instructions" = Ok None /\
  snd (require (generatedIdlPath repo_idl)
         (world_with (generatedIdlPath repo_idl) (JSON_stringify no_instructions)))
  = Returned no_instructions.
Proof. repeat split; vm_compute; reflexivity. Qed.

(** ** Saving, loading, saving *)

(** C8. Round-trip stability: a value in the model's fragment, its objects in
    property order, is printed to a text that parses back to the same value,
    hence to the same text when printed again; on the file system, a later
    process that loads the saved file and saves what it loaded leaves the
    files as the first save left them. *)
Theorem save_load_save v :
  canonical v = true ->
  JSON_parse (JSON_stringify v) = Ok v /\
  (forall v', JSON_parse (JSON_stringify v) = Ok v' ->
              JSON_stringify v' = JSON_stringify v) /\
  (forall p w w1 w2,
      writeFileSync p (JSON_stringify v) w = (w1, Returned tt) ->
      files w2 = files w1 -> modules w2 !! p = None ->
      exists w3 v',
        require p w2 = (w3, Returned v') /\
        files (fst (writeFileSync p (JSON_stringify v') w3)) = files w1).
Proof.
  intros Hc. pose proof (JSON_parse_stringify v Hc) as Hrt.
  split; [done|]. split.
  - intros v'. rewrite Hrt. by intros [= <-].
  - intros p w w1 w2 [= <-] Hfiles Hfresh.
    assert (files w2 !! p = Some (JSON_stringify v)) as Hread.
    { rewrite Hfiles. simpl. apply lookup_insert_eq. }
    rewrite (require_fresh p w2 _ v Hfresh Hread Hrt).
    eexists _, _. split; [reflexivity|]. simpl.
    rewrite Hfiles. simpl. apply insert_insert_eq.
Qed.

Lemma save_load_save_witness :
  JSON_parse (JSON_stringify sample_schema) = Ok sample_schema /\
  (forall v', JSON_parse (JSON_stringify sample_schema) = Ok v' ->
              JSON_stringify v' = JSON_stringify sample_schema) /\
  (forall p w w1 w2,
      writeFileSync p (JSON_stringify sample_schema) w = (w1, Returned tt) ->
      files w2 = files w1 -> modules w2 !! p = None ->
      exists w3 v',
        require p w2 = (w3, Returned v') /\
        files (fst (writeFileSync p (JSON_stringify v') w3)) = files w1).
Proof. apply (save_load_save sample_schema). reflexivity. Defined.

(** ** generateClient.js *)




(** ** The two scripts do not meet *)

(** C3, as the code has it: from the same directory the patch step writes
    [phoenix.json] and the client generator reads [phoenix_v1.json], two
    different paths; and a run of generateIdl.js in which the child does not
    write the generator's file leaves that file as it was. *)
Theorem generator_reads_another_file dirname :
  generatedIdlPath dirname = dirname ++ ["phoenix.json"] /\
  GenerateClient.generatedIdlPath dirname = dirname ++ ["phoenix_v1.json"] /\
  generatedIdlPath dirname <> GenerateClient.generatedIdlPath dirname /\
  (forall rustbin steps w,
      Forall (fun st => forall c,
                st <> ChildWrites (GenerateClient.generatedIdlPath dirname) c) steps ->
      final_files (main dirname rustbin steps w)
        !! GenerateClient.generatedIdlPath dirname
      = files w !! GenerateClient.generatedIdlPath dirname).
Proof.
  assert (generatedIdlPath dirname <> GenerateClient.generatedIdlPath dirname)
    as Hne.
  { unfold generatedIdlPath, GenerateClient.generatedIdlPath, idlDir,
      GenerateClient.idlDir. simpl. intros H. by apply app_inv_head in H. }
  split; [done|]. split; [done|]. split; [done|].
  intros rustbin steps w Hsteps. unfold main.
  destruct rustbin; [|done..].
  revert w. induction Hsteps as [|st steps Hst _ IH]; intros w; [done|].
  simpl. destruct st as [ev|p c].
  - assert (forall w' o, handle dirname ev w = (w', o) ->
            files w' !! GenerateClient.generatedIdlPath dirname
            = files w !! GenerateClient.generatedIdlPath dirname) as Hframe.
    { intros w' o. destruct ev as [code|code signal|buf|buf]; simpl.
      - unfold bind, console_error, process_exit.
        destruct (String.eqb code "ENOENT"); by intros [= <- _].
      - unfold mutateIdl, bind, console_error, require, lift, writeFileSync.
        simpl.
        destruct (modules w !! _) as [v|].
        + destruct (patchIdl v); intros [= <- _]; simpl; try done.
          by rewrite lookup_insert_ne.
        + destruct (files w !! generatedIdlPath dirname) as [text|];
            [|by intros [= <- _]].
          destruct (JSON_parse text) as [v| |]; try by intros [= <- _].
          simpl. destruct (patchIdl v); intros [= <- _]; simpl; try done.
          by rewrite lookup_insert_ne.
      - by intros [= <- _].
      - by intros [= <- _]. }
    destruct (handle dirname ev w) as [w' o] eqn:E.
    specialize (Hframe w' o eq_refl).
    destruct o; simpl; try done. by rewrite IH.
  - rewrite IH. simpl. apply lookup_insert_ne. intros ->. by apply (Hst c).
Qed.

End ScriptFacts.

(** * More of the patch step *)

Module PatchMore.
Import GenerateIdl Samples PatcherFacts PatchRuns MoreSamples.

Lemma run_rules_no_array rules ps name :
  obj_get "name" ps = Some (JStr name) ->
  (forall a, obj_get "args" ps <> Some (JArr a)) ->
  existsb (rule_hits name) rules = true ->
  run_rules rules (JObj ps) = Throw TypeError.
Proof.
  intros Hn Ha. induction rules as [|r rules IH]; simpl; [done|].
  unfold if_named, name_among, push_arg. simpl. rewrite Hn. simpl.
  fold (rule_hits name r).
  destruct (rule_hits name r); simpl.
  - intros _. destruct (obj_get "args" ps) as [[]|]; try done.
    by destruct (Ha xs).
  - exact IH.
Qed.

Lemma patch_instruction_no_name i :
  instr_name i = None -> patch_instruction i = i.
Proof. unfold patch_instruction. by intros ->. Qed.

Lemma mutateInstruction_nameless i :
  i <> JNull -> instr_name i = None ->
  mutateInstruction i = Ok (patch_instruction i).
Proof.
  intros Hnull Hn. rewrite mutateInstruction_miss, patch_instruction_no_name;
    try done.
  intros n. by rewrite Hn.
Qed.

Lemma mutateInstruction_outcome i :
  mutateInstruction i
  = if patchable i then Ok (patch_instruction i) else Throw TypeError.
Proof.
  destruct (instr_name i) as [name|] eqn:Hname.
  2:{ destruct i as [| | | | |ps]; try done;
        (rewrite mutateInstruction_nameless; [|done..]); try done.
      simpl in *. by destruct (obj_get "name" ps) as [[]|]. }
  pose proof Hname as Hn. apply instr_name_Some in Hn as (ps & -> & Hn).
  unfold patchable. rewrite Hn.
  destruct (covered name) eqn:Hc.
  - destruct (instr_args (JObj ps)) as [a|] eqn:Ha.
    + rewrite mutateInstruction_patch; [|split; by eexists].
      simpl in Ha. by destruct (obj_get "args" ps) as [[]|].
    + rewrite mutateInstruction_run_rules.
      rewrite (run_rules_no_array _ _ name); try done.
      * simpl in Ha. by destruct (obj_get "args" ps) as [[]|].
      * intros a Hx. simpl in Ha. by rewrite Hx in Ha.
  - rewrite mutateInstruction_miss; [|done|].
    + by rewrite (patch_instruction_uncovered _ name).
    + intros n. rewrite Hname. by intros [= <-].
Qed.

Lemma for_of_outcome xs :
  for_of mutateInstruction xs
  = if forallb patchable xs then Ok (map patch_instruction xs)
    else Throw TypeError.
Proof.
  induction xs as [|x xs IH]; simpl; [done|].
  rewrite mutateInstruction_outcome, IH.
  destruct (patchable x); simpl; [|done].
  by destruct (forallb patchable xs).
Qed.

(** X1. The patch loop on any loaded value. When [instructions] is an array,
    the loop succeeds exactly when every element is patchable (not [null],
    and with an array [args] whenever a rule names it), and then the result
    is the schema with every instruction patched; otherwise it throws a
    TypeError. On a string it changes nothing; on anything else it throws a
    TypeError. It throws nothing but a TypeError. *)
Theorem patchIdl_outcome idl :
  (forall xs, instructions_of idl = Some xs ->
     patchIdl idl = if forallb patchable xs then Ok (patch_schema idl)
                    else Throw TypeError) /\
  (forall s, get_prop idl "instructions" = Ok (Some (JStr s)) ->
     patchIdl idl = Ok idl) /\
  (instructions_of idl = None ->
   (forall s, get_prop idl "instructions" <> Ok (Some (JStr s))) ->
     patchIdl idl = Throw TypeError) /\
  patchIdl idl <> Beyond /\
  (forall e, patchIdl idl = Throw e -> e = TypeError).
Proof.
  assert (forall xs, instructions_of idl = Some xs ->
     patchIdl idl = if forallb patchable xs then Ok (patch_schema idl)
                    else Throw TypeError) as Harr.
  { intros xs Hxs. unfold patch_schema. rewrite Hxs.
    apply instructions_of_Some in Hxs as (ps & -> & Hxs).
    unfold patchIdl. simpl. rewrite Hxs, for_of_outcome.
    by destruct (forallb patchable xs). }
  assert (forall s, get_prop idl "instructions" = Ok (Some (JStr s)) ->
     patchIdl idl = Ok idl) as Hstr.
  { intros s Hs. unfold patchIdl. by rewrite Hs. }
  assert (instructions_of idl = None ->
   (forall s, get_prop idl "instructions" <> Ok (Some (JStr s))) ->
     patchIdl idl = Throw TypeError) as Hnone.
  { intros Hnone Hns. unfold patchIdl.
    destruct idl as [| | | | |ps]; try done. simpl in *.
    destruct (obj_get "instructions" ps) as [[]|]; try done.
    by destruct (Hns s). }
  split; [done|]. split; [done|]. split; [done|].
  clear. unfold patchIdl.
  destruct idl as [| | | | |ps]; simpl; try (split; [done|by intros e [= <-]]).
  destruct (obj_get "instructions" ps) as [[]|]; simpl;
    try (split; [done|by intros e [= <-]]).
  rewrite for_of_outcome. destruct (forallb patchable xs); simpl;
    (split; [done|by intros e [= <-]]).
Qed.

Lemma patchIdl_outcome_witness :
  patchIdl broken_schema
  = (if forallb patchable
          [ JObj [ ("name", JStr "Log") ];
            JObj [ ("name", JStr "DepositFunds"); ("args", JNull) ] ]
     then Ok (patch_schema broken_schema) else Throw TypeError) /\
  patchIdl broken_schema = Throw TypeError.
Proof.
  split; [|reflexivity].
  apply (proj1 (patchIdl_outcome broken_schema)). reflexivity.
Defined.

(** ** Repeated runs *)






End PatchMore.

(** * The parser's values *)

Module TextMore.
Import JsonText TextFacts PatcherFacts TextFragment.

(** ** What the parser returns is in the fragment *)

Lemma simple_escape_ascii e x : simple_escape e = Some x -> (code x <? 128)%N = true.
Proof.
  unfold simple_escape.
  repeat match goal with
         | |- context [if ?b then _ else _] => destruct b
         end; by intros [= <-].
Qed.

Lemma code_ascii_of_N n : (n < 128)%N -> code (ascii_of_N n) = n.
Proof. intros H. unfold code. apply N_ascii_embedding. lia. Qed.

Lemma pres_cons_inv c p cs r :
  pres_cons c p = Parsed cs r -> exists cs', cs = c :: cs' /\ p = Parsed cs' r.
Proof. destruct p; simpl; [|done]. intros [= <- <-]. eauto. Qed.

Lemma parse_chars_ascii n : forall s cs r,
  length s <= n -> parse_chars s = Parsed cs r ->
  forallb (fun c => (code c <? 128)%N) cs = true.
Proof.
  induction n as [|n IH]; intros [|c s] cs r Hn; simpl in *; try done; try lia.
  intros H. repeat split_match H;
    try (apply pres_cons_inv in H as (cs' & -> & H); simpl;
         apply IH in H; [rewrite H, andb_true_r|simpl in *; lia]).
  - by injection H as <- _.
  - by eapply simple_escape_ascii.
  - match goal with
    | Hlt : (?m <? 128)%N = true |- _ =>
        apply N.ltb_lt in Hlt as Hlt'; by rewrite (code_ascii_of_N _ Hlt')
    end.
  - match goal with
    | Hge : (128 <=? _)%N = false |- _ => apply N.leb_gt in Hge; by apply N.ltb_lt
    end.
Qed.

Lemma parse_chars_ascii_only s cs r :
  parse_chars s = Parsed cs r -> ascii_only (string_of_list_ascii cs) = true.
Proof.
  intros H. unfold ascii_only. rewrite list_ascii_of_string_of_list_ascii.
  by apply (parse_chars_ascii (length s) s cs r).
Qed.

Lemma parse_int_safe s n r :
  parse_int s = Parsed n r -> (0 <= n <= MAX_SAFE_INTEGER)%Z.
Proof.
  destruct s as [|c s]; [done|]. rewrite parse_int_cons.
  destruct (digit_char c); [|done].
  destruct (if Ascii.eqb c "0" then _ else _) as [ds r'].
  destruct (starts_fraction r'); [done|]. cbv zeta.
  destruct (Z.leb_spec (Z.of_N (N.of_uint ds)) MAX_SAFE_INTEGER); [|done].
  intros [= <- _]. lia.
Qed.

Lemma parse_number_safe s n r :
  parse_number s = Parsed n r -> (Z.abs n <=? MAX_SAFE_INTEGER)%Z = true.
Proof.
  destruct s as [|c s]; [done|]. unfold parse_number.
  destruct (Ascii.eqb c "-").
  - destruct (parse_int s) as [m r'|] eqn:E; [|done].
    intros [= <- _]. apply parse_int_safe in E. apply Z.leb_le. lia.
  - intros E%parse_int_safe. apply Z.leb_le. lia.
Qed.

(** ** Array-index keys *)

Lemma digit_char_text c f :
  digit_char c = Some f ->
  (forall d, uint_text (f d) = c :: uint_text d) /\
  (Ascii.eqb c "0" = false -> forall d, Decimal.unorm (f d) = f d).
Proof.
  unfold digit_char.
  repeat match goal with
         | |- context [if Ascii.eqb c ?x then _ else _] =>
             let E := fresh "E" in
             destruct (Ascii.eqb c x) eqn:E;
             [apply Ascii.eqb_eq in E as ->; intros [= <-]; split; [done|];
              first [discriminate | done] |]
         end.
  done.
Qed.

Lemma read_digits_all s : forall ds,
  read_digits s = (ds, []) -> s = uint_text ds.
Proof.
  induction s as [|c s IH]; simpl; intros ds.
  - by intros [= <-].
  - destruct (digit_char c) as [f|] eqn:Hf; [|done].
    destruct (read_digits s) as [ds' r'] eqn:E. intros [= <- ->].
    rewrite (proj1 (digit_char_text c f Hf)). f_equal. by apply IH.
Qed.

Lemma array_index_spec k n :
  array_index k = Some n ->
  exists ds, list_ascii_of_string k = uint_text ds /\
             Decimal.unorm ds = ds /\ N.of_uint ds = n.
Proof.
  unfold array_index.
  destruct (list_ascii_of_string k) as [|c r] eqn:Hk; [done|].
  destruct (read_digits (c :: r)) as [ds r'] eqn:E.
  destruct r' as [|? ?]; [|done].
  pose proof (read_digits_all _ _ E) as Htext.
  destruct (Ascii.eqb c "0") eqn:E0.
  - destruct r as [|c' r]; [|done]. simpl.
    apply Ascii.eqb_eq in E0 as ->. injection E as <-.
    simpl. intros [= <-]. by exists (Decimal.D0 Decimal.Nil).
  - simpl. destruct (N.of_uint ds <=? 4294967294)%N; [|done].
    intros [= <-]. exists ds. split; [done|]. split; [|done].
    simpl in E. destruct (digit_char c) as [f|] eqn:Hf; [|done].
    destruct (read_digits r) as [ds' r''] eqn:E'. injection E as <- _.
    by apply (proj2 (digit_char_text c f Hf)).
Qed.

Lemma array_index_inj k1 k2 n :
  array_index k1 = Some n -> array_index k2 = Some n -> k1 = k2.
Proof.
  intros (d1 & H1 & N1 & V1)%array_index_spec (d2 & H2 & N2 & V2)%array_index_spec.
  assert (d1 = d2) as ->.
  { rewrite <- N1, <- N2. apply DecimalN.Unsigned.of_inj. congruence. }
  rewrite <- (string_of_list_ascii_of_string k1),
          <- (string_of_list_ascii_of_string k2).
  congruence.
Qed.

(** ** [obj_set] keeps the enumeration order *)

Section KeyOrder.
Implicit Types (k : string) (v : json) (ps : list (string * json)).

Lemma has_key_keys k ps : has_key k ps = existsb (String.eqb k) (keys ps).
Proof. induction ps as [|[k' v'] ps IH]; simpl; [done|]. by rewrite IH. Qed.

Lemma forallb_keys_insert (P : string -> bool) n k v ps :
  forallb P (keys (insert_index n k v ps)) = P k && forallb P (keys ps).
Proof.
  induction ps as [|[k' v'] ps IH]; simpl; [done|].
  destruct (array_index k') as [m|]; [|done].
  destruct (m <? n)%N; [|done]. simpl. rewrite IH.
  destruct (P k), (P k'); done.
Qed.

Lemma existsb_keys_insert (P : string -> bool) n k v ps :
  existsb P (keys (insert_index n k v ps)) = P k || existsb P (keys ps).
Proof.
  induction ps as [|[k' v'] ps IH]; simpl; [done|].
  destruct (array_index k') as [m|]; [|done].
  destruct (m <? n)%N; [|done]. simpl. rewrite IH.
  destruct (P k), (P k'); done.
Qed.

Lemma forallb_insert (Q : string * json -> bool) n k v ps :
  forallb Q (insert_index n k v ps) = Q (k, v) && forallb Q ps.
Proof.
  induction ps as [|[k' v'] ps IH]; simpl; [done|].
  destruct (array_index k') as [m|]; [|done].
  destruct (m <? n)%N; [|done]. simpl. rewrite IH.
  destruct (Q (k, v)), (Q (k', v')); done.
Qed.

Lemma key_before_trans_index k k' n m ks :
  array_index k = Some n -> array_index k' = Some m -> (n < m)%N ->
  forallb (key_before k') ks = true -> forallb (key_before k) ks = true.
Proof.
  intros Hk Hk' Hlt. induction ks as [|k2 ks IH]; simpl; [done|].
  intros [H2 Hks]%andb_true_iff. rewrite (IH Hks), andb_true_r.
  unfold key_before in *. rewrite Hk. rewrite Hk' in H2.
  destruct (array_index k2) as [m2|]; [|done].
  apply N.ltb_lt in H2. apply N.ltb_lt. lia.
Qed.

Lemma key_before_after_name k k' n ks :
  array_index k = Some n -> array_index k' = None ->
  forallb (key_before k') ks = true -> forallb (key_before k) ks = true.
Proof.
  intros Hk Hk'. induction ks as [|k2 ks IH]; simpl; [done|].
  intros [H2 Hks]%andb_true_iff. rewrite (IH Hks), andb_true_r.
  unfold key_before in *. rewrite Hk' in H2.
  by destruct (array_index k2).
Qed.

Lemma insert_index_ordered n k v ps :
  array_index k = Some n -> has_key k ps = false ->
  keys_ordered (keys ps) = true ->
  keys_ordered (keys (insert_index n k v ps)) = true.
Proof.
  intros Hk. induction ps as [|[k' v'] ps IH]; [done|].
  cbn [has_key keys map fst keys_ordered insert_index].
  intros [Hne Hfresh]%orb_false_iff [[Hbef Hnd]%andb_true_iff Hord]%andb_true_iff.
  fold (keys ps) in *.
  destruct (array_index k') as [m|] eqn:Hk'.
  - destruct (N.ltb_spec m n) as [Hlt|Hge].
    + cbn [keys map fst keys_ordered]. fold (keys (insert_index n k v ps)).
      rewrite forallb_keys_insert, existsb_keys_insert, Hbef, (IH Hfresh Hord).
      rewrite String.eqb_sym, Hne. simpl. rewrite andb_true_r in *.
      rewrite Hnd, andb_true_r. unfold key_before. rewrite Hk, Hk'.
      by apply N.ltb_lt in Hlt as ->.
    + assert (n < m)%N as Hlt.
      { destruct (N.eq_dec n m) as [->|]; [|lia].
        rewrite (array_index_inj k k' m Hk Hk'), String.eqb_refl in Hne. done. }
      cbn [keys map fst keys_ordered forallb existsb]. fold (keys ps).
      rewrite Hbef, Hnd, Hord, Hne, <- has_key_keys, Hfresh.
      rewrite (key_before_trans_index k k' n m _ Hk Hk' Hlt Hbef).
      unfold key_before. rewrite Hk, Hk'. by apply N.ltb_lt in Hlt as ->.
  - cbn [keys map fst keys_ordered forallb existsb]. fold (keys ps).
    rewrite Hbef, Hnd, Hord, Hne, <- has_key_keys, Hfresh.
    rewrite (key_before_after_name k k' n _ Hk Hk' Hbef).
    unfold key_before. by rewrite Hk'.
Qed.

Lemma keys_ordered_snoc ks k :
  keys_ordered ks = true -> array_index k = None ->
  existsb (String.eqb k) ks = false ->
  keys_ordered (ks ++ [k]) = true.
Proof.
  intros Hord Hk. induction ks as [|k' ks IH]; simpl; [done|].
  simpl in Hord. apply andb_true_iff in Hord as [[Hbef Hnd]%andb_true_iff Hord].
  intros [Hne Hfresh]%orb_false_iff.
  rewrite forallb_app, existsb_app, Hbef, (IH Hord Hfresh). simpl.
  apply negb_true_iff in Hnd. rewrite Hnd, String.eqb_sym, Hne. simpl.
  unfold key_before. by rewrite Hk.
Qed.

Lemma obj_set_ordered ps k v :
  keys_ordered (keys ps) = true -> keys_ordered (keys (obj_set ps (k, v))) = true.
Proof.
  intros Hord. unfold obj_set.
  destruct (has_key k ps) eqn:Hhas.
  - by rewrite keys_update.
  - destruct (array_index k) as [n|] eqn:Hk.
    + by apply insert_index_ordered.
    + unfold keys. rewrite map_app. apply keys_ordered_snoc; try done.
      by rewrite <- has_key_keys.
Qed.

Lemma forallb_obj_update (Q : string * json -> bool) k v ps :
  forallb Q ps = true -> Q (k, v) = true -> forallb Q (obj_update k v ps) = true.
Proof.
  intros Hps Hkv. induction ps as [|[k' v'] ps IH]; simpl; [done|].
  simpl in Hps. apply andb_true_iff in Hps as [Hp Hps].
  destruct (String.eqb k k') eqn:E; simpl.
  - apply String.eqb_eq in E as <-. by rewrite Hkv.
  - by rewrite Hp, IH.
Qed.

Lemma obj_set_entries (Q : string * json -> bool) ps k v :
  forallb Q ps = true -> Q (k, v) = true -> forallb Q (obj_set ps (k, v)) = true.
Proof.
  intros Hps Hkv. unfold obj_set.
  destruct (has_key k ps); [by apply forallb_obj_update|].
  destruct (array_index k) as [n|].
  - by rewrite forallb_insert, Hkv.
  - rewrite forallb_app, Hps. simpl. by rewrite Hkv.
Qed.

Lemma build_object_canonical ms :
  forallb entry_ok ms = true -> canonical (JObj (build_object ms)) = true.
Proof.
  intros Hms. unfold build_object.
  assert (forall acc,
    forallb entry_ok acc = true -> keys_ordered (keys acc) = true ->
    forallb entry_ok (fold_left obj_set ms acc) = true /\
    keys_ordered (keys (fold_left obj_set ms acc)) = true) as H.
  { induction ms as [|[k v] ms IH]; intros acc Hacc Hord; cbn [fold_left]; [done|].
    simpl in Hms. apply andb_true_iff in Hms as [Hkv Hms].
    apply (IH Hms); [by apply obj_set_entries|by apply obj_set_ordered]. }
  destruct (H [] eq_refl eq_refl) as [H1 H2].
  cbn [canonical]. fold entry_ok. unfold entry_ok in *. by rewrite H1, H2.
Qed.
End KeyOrder.

(** ** The parser's values *)

Ltac canonical_facts :=
  repeat match goal with
    | H : Parsed _ _ = Parsed _ _ |- _ => injection H as <- <-
    | IH : yields ?p _, H : ?p _ = Parsed _ _ |- _ => apply IH in H
    | H : parse_chars _ = Parsed _ _ |- _ => apply parse_chars_ascii_only in H
    | H : parse_number _ = Parsed _ _ |- _ => apply parse_number_safe in H
    end.

Lemma parser_canonical fuel :
  yields (parse_value fuel) canonical /\
  yields (parse_elements fuel) (forallb canonical) /\
  yields (parse_members fuel) (forallb entry_ok).
Proof.
  induction fuel as [|fuel (IHv & IHe & IHm)]; [by repeat split|].
  repeat split; intros s a r H.
  - cbn [parse_value] in H.
    repeat split_match H; canonical_facts; try done.
    by apply build_object_canonical.
  - cbn [parse_elements] in H.
    repeat split_match H; canonical_facts; cbn [forallb];
      repeat match goal with Hc : _ = true |- _ => rewrite Hc end; try done.
  - cbn [parse_members] in H.
    repeat split_match H; cbv zeta in H; canonical_facts;
      cbn [forallb]; unfold entry_ok in *; simpl fst; simpl snd;
      repeat match goal with Hc : _ = true |- _ => rewrite Hc end; done.
Qed.

Lemma JSON_parse_canonical s v : JSON_parse s = Ok v -> canonical v = true.
Proof.
  unfold JSON_parse.
  destruct (parse_value _ _) as [a r|[]] eqn:E; try done.
  destruct (skip_ws r); [|done]. intros [= <-].
  by apply (proj1 (parser_canonical _)) in E.
Qed.

End TextMore.

(** * Runs of generateIdl.js *)

Module RunFacts.
Import JsonText GenerateIdl Samples PatcherFacts TextFacts ScriptFacts.
Import PatchRuns TextFragment ChildRuns MoreSamples PatchMore TextMore.

(** ** The patcher stays in the fragment *)

Lemma entries_obj_get ps k v :
  forallb entry_ok ps = true -> obj_get k ps = Some v -> canonical v = true.
Proof.
  induction ps as [|[k' v'] ps IH]; simpl; [done|].
  intros [[_ Hv]%andb_true_iff Hps]%andb_true_iff.
  destruct (String.eqb k k'); [by intros [= <-]|]. by apply IH.
Qed.

Lemma canonical_with_prop o k v :
  canonical o = true -> ascii_only k = true -> canonical v = true ->
  canonical (with_prop o k v) = true.
Proof.
  destruct o as [| | | | |ps]; simpl; try done.
  fold entry_ok. intros [He Ho]%andb_true_iff Hk Hv.
  rewrite keys_update, Ho, andb_true_r.
  apply forallb_obj_update; [done|]. unfold entry_ok. simpl. by rewrite Hk, Hv.
Qed.

Lemma appended_canonical name : forallb canonical (appended name) = true.
Proof.
  unfold appended, appended_by.
  assert (forallb (fun r => canonical (append r)) patchTable = true) as H
    by (vm_compute; reflexivity).
  induction patchTable as [|r rules IH]; simpl; [done|].
  simpl in H. apply andb_true_iff in H as [Hr Hrules].
  rewrite forallb_app, (IH Hrules), andb_true_r.
  destruct (rule_hits name r); [|done]. simpl. by rewrite Hr.
Qed.

Lemma canonical_patch_instruction i :
  canonical i = true -> canonical (patch_instruction i) = true.
Proof.
  intros Hc. unfold patch_instruction.
  destruct (instr_name i) as [n|]; [|done].
  destruct (instr_args i) as [a|] eqn:Ha; [|done].
  apply canonical_with_prop; [done..|].
  simpl. rewrite forallb_app, appended_canonical, andb_true_r.
  apply instr_args_Some in Ha as (ps & -> & Ha).
  simpl in Hc. fold entry_ok in Hc. apply andb_true_iff in Hc as [He _].
  by apply (entries_obj_get ps "args" (JArr a) He Ha).
Qed.

Lemma canonical_patch_schema idl :
  canonical idl = true -> canonical (patch_schema idl) = true.
Proof.
  intros Hc. unfold patch_schema.
  destruct (instructions_of idl) as [xs|] eqn:Hxs; [|done].
  apply canonical_with_prop; [done..|]. simpl.
  apply instructions_of_Some in Hxs as (ps & -> & Hxs).
  simpl in Hc. fold entry_ok in Hc. apply andb_true_iff in Hc as [He _].
  pose proof (entries_obj_get ps _ _ He Hxs) as Hx. simpl in Hx.
  rewrite forallb_forall in Hx |- *. intros y (x & <- & Hin)%in_map_iff.
  apply canonical_patch_instruction. by apply Hx.
Qed.

Lemma canonical_patchIdl idl idl' :
  canonical idl = true -> patchIdl idl = Ok idl' -> canonical idl' = true.
Proof.
  intros Hc. unfold patchIdl.
  destruct idl as [| | | | |ps]; simpl; try done.
  destruct (obj_get "instructions" ps) as [[]|] eqn:Hg; simpl; try done.
  - by intros [= <-].
  - rewrite for_of_outcome. destruct (forallb patchable xs); [|done].
    intros [= <-].
    pose proof (canonical_patch_schema (JObj ps) Hc) as H.
    unfold patch_schema in H. simpl in H. by rewrite Hg in H.
Qed.

(** ** What [mutateIdl] leaves on disk *)

(** X3. What [mutateIdl] leaves on disk: whatever the layout of the file it
    loaded, when the loop succeeds the file it writes is the printed patched
    value, that text parses back to the patched value, and a later process
    that requires the file gets exactly the patched value. *)
Theorem mutateIdl_output_reloads dirname w content v v' :
  modules w !! generatedIdlPath dirname = None ->
  files w !! generatedIdlPath dirname = Some content ->
  JSON_parse content = Ok v ->
  patchIdl v = Ok v' ->
  exists w1,
    mutateIdl dirname w = (w1, Returned tt) /\
    files w1 !! generatedIdlPath dirname = Some (JSON_stringify v') /\
    JSON_parse (JSON_stringify v') = Ok v' /\
    (forall w2,
        files w2 = files w1 -> modules w2 !! generatedIdlPath dirname = None ->
        snd (require (generatedIdlPath dirname) w2) = Returned v').
Proof.
  intros Hm Hf Hp Hpatch.
  destruct (mutateIdl_patched dirname w content v v' Hm Hf Hp Hpatch)
    as (w1 & Hrun & Hfiles & _).
  assert (JSON_parse (JSON_stringify v') = Ok v') as Hrt.
  { apply JSON_parse_stringify. apply (canonical_patchIdl v v'); [|done].
    by apply (JSON_parse_canonical content). }
  exists w1. split; [done|].
  assert (files w1 !! generatedIdlPath dirname = Some (JSON_stringify v')) as Hread.
  { rewrite Hfiles. apply lookup_insert_eq. }
  split; [done|]. split; [done|].
  intros w2 Hsame Hfresh.
  rewrite (require_fresh _ w2 (JSON_stringify v') v'); try done.
  by rewrite Hsame.
Qed.

Lemma mutateIdl_output_reloads_witness :
  exists w1,
    mutateIdl repo_idl stale_world = (w1, Returned tt) /\
    files w1 !! generatedIdlPath repo_idl = Some (JSON_stringify patched_twice) /\
    JSON_parse (JSON_stringify patched_twice) = Ok patched_twice /\
    (forall w2,
        files w2 = files w1 -> modules w2 !! generatedIdlPath repo_idl = None ->
        snd (require (generatedIdlPath repo_idl) w2) = Returned patched_twice).
Proof.
  apply (mutateIdl_output_reloads repo_idl stale_world
           (JSON_stringify patched_once) patched_once patched_twice).
  - reflexivity.
  - reflexivity.
  - vm_compute. reflexivity.
  - reflexivity.
Defined.

Lemma JSON_parse_throws s e : JSON_parse s = Throw e -> e = SyntaxError.
Proof.
  unfold JSON_parse. destruct (parse_value _ _) as [a r|[]]; try done.
  - destruct (skip_ws r); [done|]. by intros [= <-].
  - by intros [= <-].
Qed.

Lemma patchIdl_throws idl e : patchIdl idl = Throw e -> e = TypeError.
Proof.
  unfold patchIdl. destruct idl as [| | | | |ps]; simpl; try by intros [= <-].
  destruct (obj_get "instructions" ps) as [[]|]; simpl; try by intros [= <-].
  rewrite for_of_outcome. destruct (forallb patchable xs); simpl; [done|].
  by intros [= <-].
Qed.

Lemma patchIdl_in_model idl : patchIdl idl <> Beyond.
Proof.
  unfold patchIdl. destruct idl as [| | | | |ps]; simpl; try done.
  destruct (obj_get "instructions" ps) as [[]|]; simpl; try done.
  rewrite for_of_outcome. by destruct (forallb patchable xs).
Qed.

(** [mutateIdl] writes the patched schema or nothing. *)
Lemma mutateIdl_all_or_nothing dirname w :
  exists w' o,
    mutateIdl dirname w = (w', o) /\
    stdout w' = stdout w /\
    stderr w' = stderr w ++ [LogText "Mutating IDL"] /\
    (forall p, p <> generatedIdlPath dirname -> files w' !! p = files w !! p) /\
    ((o = Returned tt /\
      exists v', files w' = <[generatedIdlPath dirname := JSON_stringify v']> (files w))
     \/
     (files w' = files w /\
      (o = OffModel \/ exists e, o = Thrown e /\ load_or_patch_error e))).
Proof.
  unfold mutateIdl, bind, console_error, require, lift, writeFileSync,
    load_or_patch_error. simpl.
  destruct (modules w !! generatedIdlPath dirname) as [v|] eqn:Hm.
  - destruct (patchIdl v) as [v'|e|] eqn:Hp; simpl; eexists _, _;
      (split; [reflexivity|]); simpl; (split; [done|]); (split; [done|]).
    + split; [intros p Hp'; by rewrite lookup_insert_ne|]. left. eauto.
    + split; [done|]. right. split; [done|]. right. exists e. split; [done|].
      right. right. by apply (patchIdl_throws v).
    + by destruct (patchIdl_in_model v).
  - destruct (files w !! generatedIdlPath dirname) as [text|] eqn:Hf.
    2:{ eexists _, _. split; [reflexivity|]. simpl. repeat split; try done.
        right. split; [done|]. right. eauto. }
    destruct (JSON_parse text) as [v|e|] eqn:Hparse; simpl.
    + destruct (patchIdl v) as [v'|e|] eqn:Hp; simpl; eexists _, _;
        (split; [reflexivity|]); simpl; (split; [done|]); (split; [done|]).
      * split; [intros p Hp'; by rewrite lookup_insert_ne|]. left. eauto.
      * split; [done|]. right. split; [done|]. right. exists e. split; [done|].
        right. right. by apply (patchIdl_throws v).
      * by destruct (patchIdl_in_model v).
    + eexists _, _. split; [reflexivity|]. simpl. repeat split; try done.
      right. split; [done|]. right. exists e. split; [done|].
      right. left. by apply (JSON_parse_throws text).
    + eexists _, _. split; [reflexivity|]. simpl. repeat split; try done.
      right. split; [done|]. by left.
Qed.

(** Whatever a listener does, it only adds to the consoles. *)
Lemma handle_extends dirname ev w :
  exists w' o out err,
    handle dirname ev w = (w', o) /\
    stdout w' = stdout w ++ out /\ stderr w' = stderr w ++ err.
Proof.
  destruct ev as [code|code signal|buf|buf]; simpl.
  - unfold bind, console_error, process_exit.
    destruct (String.eqb code "ENOENT"); simpl.
    + eexists _, _, [], _. split; [reflexivity|]. simpl.
      split; [by rewrite app_nil_r|]. by rewrite <- app_assoc.
    + eexists _, _, [], _. split; [reflexivity|]. simpl.
      split; [by rewrite app_nil_r|done].
  - destruct (mutateIdl_all_or_nothing dirname w)
      as (w' & o & -> & Hout & Herr & _).
    eexists _, _, [], _. split; [reflexivity|]. rewrite app_nil_r.
    split; [exact Hout|exact Herr].
  - eexists _, _, _, []. split; [reflexivity|]. simpl.
    split; [reflexivity|by rewrite app_nil_r].
  - eexists _, _, [], _. split; [reflexivity|]. simpl.
    split; [by rewrite app_nil_r|reflexivity].
Qed.

Lemma event_loop_extends dirname steps : forall w,
  exists out err,
    final_stdout (event_loop dirname steps w) = stdout w ++ out /\
    final_stderr (event_loop dirname steps w) = stderr w ++ err.
Proof.
  induction steps as [|st steps IH]; intros w.
  - exists [], []. simpl. by rewrite !app_nil_r.
  - destruct st as [ev|p content]; simpl;
      [|apply (IH (set_files (<[p := content]> (files w)) w))].
    destruct (handle_extends dirname ev w)
      as (w' & o & out & err & -> & Hout & Herr).
    destruct o as [[]|e|n|]; simpl;
      try (exists out, err; by split).
    destruct (IH w') as (out' & err' & Hout' & Herr').
    exists (out ++ out'), (err ++ err').
    by rewrite Hout', Herr', Hout, Herr, <- !app_assoc.
Qed.

(** X6. Until the child emits ['error'] or ['exit'], the script only passes
    its output on. A run that begins with such steps goes on exactly as a run
    begun in the state where the standard output has got the child's stdout
    chunks and the error console its stderr chunks, in order and nothing
    else, the files are what the child wrote, and no schema has been loaded
    or patched. So, however the run goes on, what it has printed at its end
    begins with those chunks. *)
Theorem streams_pass_through dirname bin before rest w :
  forallb quiet before = true ->
  main dirname (Ok bin) (before ++ rest) w
  = main dirname (Ok bin) rest (after_quiet before w) /\
  exists out err,
    final_stdout (main dirname (Ok bin) (before ++ rest) w)
    = stdout w ++ stdout_of before ++ out /\
    final_stderr (main dirname (Ok bin) (before ++ rest) w)
    = stderr w ++ stderr_of before ++ err.
Proof.
  intros Hq. unfold main. rewrite (quiet_prefix dirname before rest w Hq).
  split; [done|].
  destruct (event_loop_extends dirname rest (after_quiet before w))
    as (out & err & Hout & Herr).
  exists out, err. rewrite Hout, Herr. simpl. by rewrite <- !app_assoc.
Qed.

Lemma streams_pass_through_witness :
  main repo_idl (Ok "shank")
    (quiet_steps ++ [Emit (ChildExit (Some 0%Z) None)]) empty_world
  = main repo_idl (Ok "shank") [Emit (ChildExit (Some 0%Z) None)]
      (after_quiet quiet_steps empty_world) /\
  exists out err,
    final_stdout (main repo_idl (Ok "shank")
                    (quiet_steps ++ [Emit (ChildExit (Some 0%Z) None)])
                    empty_world)
    = stdout empty_world ++ stdout_of quiet_steps ++ out /\
    final_stderr (main repo_idl (Ok "shank")
                    (quiet_steps ++ [Emit (ChildExit (Some 0%Z) None)])
                    empty_world)
    = stderr empty_world ++ stderr_of quiet_steps ++ err.
Proof.
  apply (streams_pass_through repo_idl "shank" quiet_steps
           [Emit (ChildExit (Some 0%Z) None)] empty_world).
  reflexivity.
Defined.

(** X7. A spawn error ends the run with status 1: the error is logged, the
    hint that names the tool follows exactly when the code is [ENOENT], no
    file is written by the script, and whatever the child emits afterwards
    changes nothing. *)
Theorem spawn_error_exits_1 dirname bin before code after w :
  forallb quiet before = true ->
  status (main dirname (Ok bin) (before ++ Emit (ChildError code) :: after) w)
  = ExitStatus 1 /\
  final_stderr (main dirname (Ok bin) (before ++ Emit (ChildError code) :: after) w)
  = stderr w ++ stderr_of before
      ++ LogError (ExternalError code)
      :: (if String.eqb code "ENOENT" then [LogText missing_tool_hint] else []) /\
  final_stdout (main dirname (Ok bin) (before ++ Emit (ChildError code) :: after) w)
  = stdout w ++ stdout_of before /\
  final_files (main dirname (Ok bin) (before ++ Emit (ChildError code) :: after) w)
  = child_writes before (files w).
Proof.
  intros Hq. unfold main. rewrite (quiet_prefix dirname before _ w Hq).
  simpl. unfold bind, console_error, process_exit.
  destruct (String.eqb code "ENOENT"); simpl; by rewrite <- ?app_assoc.
Qed.

Lemma spawn_error_exits_1_witness :
  status (main repo_idl (Ok "shank")
            (quiet_steps ++ Emit (ChildError "ENOENT")
               :: [Emit (ChildExit None None)]) empty_world)
  = ExitStatus 1 /\
  final_stderr (main repo_idl (Ok "shank")
                  (quiet_steps ++ Emit (ChildError "ENOENT")
                     :: [Emit (ChildExit None None)]) empty_world)
  = stderr empty_world ++ stderr_of quiet_steps
      ++ LogError (ExternalError "ENOENT")
      :: (if String.eqb "ENOENT" "ENOENT" then [LogText missing_tool_hint] else []) /\
  final_stdout (main repo_idl (Ok "shank")
                  (quiet_steps ++ Emit (ChildError "ENOENT")
                     :: [Emit (ChildExit None None)]) empty_world)
  = stdout empty_world ++ stdout_of quiet_steps /\
  final_files (main repo_idl (Ok "shank")
                 (quiet_steps ++ Emit (ChildError "ENOENT")
                    :: [Emit (ChildExit None None)]) empty_world)
  = child_writes quiet_steps (files empty_world).
Proof.
  apply (spawn_error_exits_1 repo_idl "shank" quiet_steps "ENOENT"
           [Emit (ChildExit None None)] empty_world).
  reflexivity.
Defined.

(** X4. The write comes last, and only after a load and a patch that
    succeeded. When the child exits after steps that only print or write:
    if loading the schema file throws, or the patch loop throws on the value
    loaded, the run ends by that uncaught error with the files exactly as the
    child left them; if both succeed, the file system accepting the write,
    the schema file holds the printed patched value of what was loaded,
    every other file is as the child left it, and the run ends with
    status 0. *)
Theorem exit_patches_or_leaves dirname bin before code signal w :
  forallb quiet before = true ->
  (forall e,
      snd (require (generatedIdlPath dirname) (after_quiet before w)) = Thrown e ->
      final_files (main dirname (Ok bin) (before ++ [Emit (ChildExit code signal)]) w)
      = child_writes before (files w) /\
      status (main dirname (Ok bin) (before ++ [Emit (ChildExit code signal)]) w)
      = Uncaught e) /\
  (forall v e,
      snd (require (generatedIdlPath dirname) (after_quiet before w)) = Returned v ->
      patchIdl v = Throw e ->
      final_files (main dirname (Ok bin) (before ++ [Emit (ChildExit code signal)]) w)
      = child_writes before (files w) /\
      status (main dirname (Ok bin) (before ++ [Emit (ChildExit code signal)]) w)
      = Uncaught e) /\
  (forall v v',
      snd (require (generatedIdlPath dirname) (after_quiet before w)) = Returned v ->
      patchIdl v = Ok v' ->
      final_files (main dirname (Ok bin) (before ++ [Emit (ChildExit code signal)]) w)
      = <[generatedIdlPath dirname := JSON_stringify v']>
          (child_writes before (files w)) /\
      status (main dirname (Ok bin) (before ++ [Emit (ChildExit code signal)]) w)
      = ExitStatus 0).
Proof.
  intros Hq. unfold main. rewrite (quiet_prefix dirname before _ w Hq).
  simpl. unfold mutateIdl, bind, console_error, require, lift, writeFileSync.
  simpl.
  destruct (modules w !! generatedIdlPath dirname) as [v0|]; simpl.
  - split; [done|]. split; intros v x [= <-] ->; done.
  - destruct (child_writes before (files w) !! generatedIdlPath dirname)
      as [text|]; simpl.
    + destruct (JSON_parse text) as [v0|e0|]; simpl.
      * split; [done|]. split; intros v x [= <-] ->; done.
      * split; [by intros e [= <-]|]. split; intros v x [=].
      * split; [done|]. split; intros v x [=].
    + split; [by intros e [= <-]|]. split; intros v x [=].
Qed.

Lemma exit_patches_or_leaves_witness :
  final_files (main repo_idl (Ok "shank")
                 (quiet_steps ++ [Emit (ChildExit (Some 0%Z) None)]) empty_world)
  = <[generatedIdlPath repo_idl := JSON_stringify (patch_schema sample_schema)]>
      (child_writes quiet_steps (files empty_world)) /\
  status (main repo_idl (Ok "shank")
            (quiet_steps ++ [Emit (ChildExit (Some 0%Z) None)]) empty_world)
  = ExitStatus 0.
Proof.
  apply (proj2 (proj2 (exit_patches_or_leaves repo_idl "shank" quiet_steps
                         (Some 0%Z) None empty_world eq_refl))
           sample_schema (patch_schema sample_schema));
    vm_compute; reflexivity.
Defined.

Lemma handle_outcome dirname ev w :
  exists w' o,
    handle dirname ev w = (w', o) /\
    (forall p, p <> generatedIdlPath dirname -> files w' !! p = files w !! p) /\
    (o = Returned tt \/ o = Exited 1%Z \/ o = OffModel \/
     exists e, o = Thrown e /\ load_or_patch_error e).
Proof.
  destruct ev as [code|code signal|buf|buf]; simpl.
  - unfold bind, console_error, process_exit.
    destruct (String.eqb code "ENOENT"); simpl; eexists _, _;
      (split; [reflexivity|]); split; auto.
  - destruct (mutateIdl_all_or_nothing dirname w)
      as (w' & o & -> & _ & _ & Hframe & [[-> _]|[_ [->|[e [-> He]]]]]);
      eexists _, _; (split; [reflexivity|]); split; eauto.
    right. right. right. eauto.
  - eexists _, _. split; [reflexivity|]. split; auto.
  - eexists _, _. split; [reflexivity|]. split; auto.
Qed.


Lemma child_writes_agree steps : forall (f g : gmap path string) p,
  f !! p = g !! p -> child_writes steps f !! p = child_writes steps g !! p.
Proof.
  induction steps as [|st steps IH]; intros f g p H; simpl; [done|].
  destruct st as [ev|q content]; [by apply IH|]. apply IH.
  destruct (decide (q = p)) as [->|Hne].
  - by rewrite !lookup_insert_eq.
  - by rewrite !lookup_insert_ne.
Qed.

(** X5. The script writes no file but the schema file: any other path holds,
    at the end of a run, what the child's own writes left there by the time
    the run ended (the writes among some first [k] steps). *)
Theorem writes_only_schema_file dirname rustbin steps w p :
  p <> generatedIdlPath dirname ->
  exists k,
    final_files (main dirname rustbin steps w) !! p
    = child_writes (take k steps) (files w) !! p.
Proof.
  intros Hp. unfold main. destruct rustbin; [|by exists 0..].
  revert w. induction steps as [|st steps IH]; intros w; [by exists 0|].
  simpl. destruct st as [ev|q content].
  - destruct (handle_outcome dirname ev w) as (w' & o & -> & Hframe & Ho).
    destruct o as [[]| | |]; try (by exists 0; simpl; apply Hframe).
    destruct (IH w') as [k Hk]. exists (S k). simpl. rewrite Hk.
    apply child_writes_agree. by apply Hframe.
  - destruct (IH (set_files (<[q := content]> (files w)) w)) as [k Hk].
    exists (S k). by rewrite Hk.
Qed.

Lemma writes_only_schema_file_witness :
  exists k,
    final_files failed_run !! ["repo"; "idl"; "package.json"]
    = child_writes
        (take k [Emit (ChildExit (Some 1%Z) None)]) (files stale_world)
        !! ["repo"; "idl"; "package.json"].
Proof.
  apply (writes_only_schema_file repo_idl (Ok "shank")
           [Emit (ChildExit (Some 1%Z) None)] stale_world
           ["repo"; "idl"; "package.json"]).
  discriminate.
Defined.

End RunFacts.

(** * Runs of the client generator *)

Module ClientFacts.
Import JsonText Samples ScriptFacts MoreSamples.
Import GenerateClientFormatted.

Lemma formatter_loop_run steps : forall w,
  formatter_loop steps w
  = finish {| files := formatter_writes steps (files w);
              modules := modules w;
              stdout := stdout w ++ formatter_stdout steps;
              stderr := stderr w ++ formatter_stderr steps |}
      (ExitStatus 0).
Proof.
  induction steps as [|st steps IH]; intros w.
  - destruct w. simpl. by rewrite !app_nil_r.
  - destruct st as [[code|code signal]|p content]; simpl; rewrite IH; simpl;
      by rewrite <- ?app_assoc.
Qed.

(** X10. The formatter cannot fail the run: once the generator has succeeded
    the run ends with status 0 whatever the formatter emits; the standard
    output gets the announcement and one line per formatter exit, the error
    console one hint per formatter error, and the script itself writes no
    file. *)
Theorem formatter_never_fails dirname render steps w w1 :
  generateTypeScriptSDK dirname render w = (w1, Returned tt) ->
  status (main dirname render steps w) = ExitStatus 0 /\
  final_stdout (main dirname render steps w)
  = stdout w1 ++ LogText "Running prettier on generated files..."
      :: formatter_stdout steps /\
  final_stderr (main dirname render steps w) = stderr w1 ++ formatter_stderr steps /\
  final_files (main dirname render steps w) = formatter_writes steps (files w1).
Proof.
  intros Hgen. unfold main. rewrite Hgen, formatter_loop_run. simpl.
  by rewrite <- app_assoc.
Qed.

Lemma formatter_never_fails_witness :
  status (main repo_idl silent_render formatter_steps client_world) = ExitStatus 0 /\
  final_stdout (main repo_idl silent_render formatter_steps client_world)
  = stdout (fst (generateTypeScriptSDK repo_idl silent_render client_world))
      ++ LogText "Running prettier on generated files..."
      :: formatter_stdout formatter_steps /\
  final_stderr (main repo_idl silent_render formatter_steps client_world)
  = stderr (fst (generateTypeScriptSDK repo_idl silent_render client_world))
      ++ formatter_stderr formatter_steps /\
  final_files (main repo_idl silent_render formatter_steps client_world)
  = formatter_writes formatter_steps
      (files (fst (generateTypeScriptSDK repo_idl silent_render client_world))).
Proof.
  apply (formatter_never_fails repo_idl silent_render formatter_steps client_world
           (fst (generateTypeScriptSDK repo_idl silent_render client_world))).
  vm_compute. reflexivity.
Defined.

Lemma generate_outcome dirname render w :
  exists w1 o,
    generateTypeScriptSDK dirname render w = (w1, o) /\
    (modules w !! generatedIdlPath dirname = None ->
     files w !! generatedIdlPath dirname = None ->
     o = Thrown ModuleNotFound /\
     w1 = set_stderr
            (stderr w ++
               [LogText ("Generating TypeScript SDK to "
                           ++ path_string (sdkDir dirname))%string]) w).
Proof.
  unfold generateTypeScriptSDK, bind, console_error, require. simpl.
  destruct (modules w !! generatedIdlPath dirname) as [v|].
  - destruct (GenerateClient.external _ _) as [w1 o]. eexists _, _.
    split; [reflexivity|]. done.
  - destruct (files w !! generatedIdlPath dirname) as [text|].
    + destruct (JSON_parse text) as [v| |].
      * destruct (GenerateClient.external _ _) as [w1 o]. eexists _, _.
        split; [reflexivity|]. done.
      * eexists _, _. split; [reflexivity|]. done.
      * eexists _, _. split; [reflexivity|]. done.
    + eexists _, _. split; [reflexivity|]. done.
Qed.

Lemma generate_never_exits dirname render w w1 n :
  generateTypeScriptSDK dirname render w <> (w1, Exited n).
Proof.
  unfold generateTypeScriptSDK, bind, console_error, require,
    GenerateClient.external, lift. simpl.
  destruct (modules w !! generatedIdlPath dirname) as [v|].
  - by destruct (render v _ _) as [w2 [[]| |]].
  - destruct (files w !! generatedIdlPath dirname) as [text|]; [|done].
    destruct (JSON_parse text) as [v| |]; [|done..].
    by destruct (render v _ _) as [w2 [[]| |]].
Qed.

(** X11. How the run with the formatter ends. It ends with status 0 exactly
    when [generateTypeScriptSDK] fulfilled, and by an unhandled rejection of
    [e] exactly when [generateTypeScriptSDK] threw [e]. In that case nothing
    in the script runs after the throw: the formatter is not started and the
    [catch] of [main] does not run, so the error is not logged and the
    script does not call [process.exit]. The script never ends the process
    with a code of its own, and no exception escapes a listener. With no
    schema file the rejection is module-not-found and the first log line is
    all that happened. *)
Theorem formatted_run_status dirname render steps w :
  (status (main dirname render steps w) = ExitStatus 0 <->
   exists w1, generateTypeScriptSDK dirname render w = (w1, Returned tt)) /\
  (forall e,
      status (main dirname render steps w) = UnhandledRejection e <->
      exists w1, generateTypeScriptSDK dirname render w = (w1, Thrown e)) /\
  (forall e w1,
      generateTypeScriptSDK dirname render w = (w1, Thrown e) ->
      main dirname render steps w = finish w1 (UnhandledRejection e)) /\
  (forall n, status (main dirname render steps w) = ExitStatus n -> n = 0%Z) /\
  (forall e, status (main dirname render steps w) <> Uncaught e) /\
  (modules w !! generatedIdlPath dirname = None ->
   files w !! generatedIdlPath dirname = None ->
   main dirname render steps w
   = finish (set_stderr
               (stderr w ++
                  [LogText ("Generating TypeScript SDK to "
                              ++ path_string (sdkDir dirname))%string]) w)
       (UnhandledRejection ModuleNotFound)).
Proof.
  destruct (generate_outcome dirname render w) as (w1 & o & E & Hmissing).
  assert (main dirname render steps w
          = match o with
            | Returned _ =>
                finish {| files := formatter_writes steps (files w1);
                          modules := modules w1;
                          stdout := (stdout w1
                                     ++ [LogText "Running prettier on generated files..."])
                                    ++ formatter_stdout steps;
                          stderr := stderr w1 ++ formatter_stderr steps |}
                  (ExitStatus 0)
            | Thrown e => finish w1 (UnhandledRejection e)
            | Exited s => finish w1 (ExitStatus s)
            | OffModel => finish w1 OutsideModel
            end) as Hrun.
  { unfold main. rewrite E. destruct o as [[]|e|n|]; try done.
    by rewrite formatter_loop_run. }
  rewrite Hrun, E. clear Hrun.
  destruct o as [[]|e|n|]; simpl.
  - split; [split; eauto|]. split; [split; [done|by intros [? [=]]]|].
    split; [by intros ? ? [=]|]. split; [by intros ? [= <-]|].
    split; [done|]. intros Hm Hf. by destruct (Hmissing Hm Hf).
  - split; [split; [done|by intros [? [=]]]|].
    split; [split; [intros [= <-]; eauto|by intros [? [= _ <-]]]|].
    split; [by intros ? ? [= <- <-]|]. split; [done|]. split; [done|].
    intros Hm Hf. by destruct (Hmissing Hm Hf) as [[= ->] ->].
  - exfalso. by apply (generate_never_exits dirname render w w1 n).
  - split; [split; [done|by intros [? [=]]]|].
    split; [split; [done|by intros [? [=]]]|].
    split; [by intros ? ? [=]|]. split; [done|]. split; [done|].
    intros Hm Hf. by destruct (Hmissing Hm Hf).
Qed.

Lemma formatted_run_status_witness :
  main repo_idl silent_render formatter_steps empty_world
  = finish (set_stderr
              (stderr empty_world ++
                 [LogText ("Generating TypeScript SDK to "
                             ++ path_string (sdkDir repo_idl))%string])
              empty_world)
      (UnhandledRejection ModuleNotFound).
Proof.
  apply (proj2 (proj2 (proj2 (proj2 (proj2
           (formatted_run_status repo_idl silent_render formatter_steps
              empty_world))))));
    reflexivity.
Defined.

(** ** generateClient.js: the failures *)




End ClientFacts.
